(** * Badge image processing: a shallow embedding of
      [server/scripts/process-badge-image.py]

    The script loads a badge picture, crops it to a square, detects the
    bounding circle of the badge by two brightness scans along the
    midlines, crops tightly around that circle, pads to a square canvas,
    applies a circular alpha mask and writes two PNG files.

    The Python code is embedded as Rocq functions: Python integers are [Z]
    ([//] is floor division, i.e. [Z.div]), [None]-able locals are
    [option Z], exceptions are the [Err] case of [result], the file system
    is a finite map from paths to files, and standard output is a list of
    messages. *)

From Stdlib Require Import ZArith QArith Lia Ascii String.
From stdpp Require Import base option list gmap strings.

Local Open Scope Z_scope.

(** ** Exceptions and the error monad *)

Inductive Exn : Type :=
  | TypeError
  | ValueError
  | IndexError
  | OSError
  | DecompressionBombError
  | OtherError (class : string)
  | SystemExit (status : Z).

Inductive result (A : Type) : Type :=
  | Ok (a : A)
  | Err (e : Exn).

Arguments Ok {A} a.
Arguments Err {A} e.

#[global] Instance result_ret : MRet result := λ A a, Ok a.
#[global] Instance result_bind : MBind result := λ A B f m,
  match m with
  | Ok a => f a
  | Err e => Err e
  end.

Definition is_Ok {A} (m : result A) : Prop := ∃ a, m = Ok a.
Definition is_Err {A} (m : result A) : Prop := ∃ e, m = Err e.

(** [for x in xs: st = body(st, x)], stopping at the first exception. *)
Fixpoint for_each {A S : Type} (body : S → A → result S) (xs : list A) (st : S)
  : result S :=
  match xs with
  | [] => Ok st
  | x :: xs' => st' ← body st x; for_each body xs' st'
  end.

(** Python's [range(n)]: empty when [n <= 0]. *)
Definition range (n : Z) : list Z := seqZ 0 n.

(** ** Images (the part of PIL's data model the script touches) *)

(** Image modes.  The mode fixes how many bands a pixel has. *)
Inductive Mode : Type :=
  | M_1 | M_L | M_P | M_I | M_LA | M_RGB | M_RGBA | M_CMYK.

#[global] Instance Mode_eq_dec : EqDecision Mode.
Proof. solve_decision. Defined.

(** What [pixels[x, y]] evaluates to: an [int] for single-band modes, a
    tuple of ints otherwise. *)
Inductive Pixel : Type :=
  | PInt (v : Z)
  | PTuple (bands : list Z).

Definition zero_pixel (m : Mode) : Pixel :=
  match m with
  | M_1 | M_L | M_P | M_I => PInt 0
  | M_LA => PTuple [0; 0]
  | M_RGB => PTuple [0; 0; 0]
  | M_RGBA | M_CMYK => PTuple [0; 0; 0; 0]
  end.

(** An image: its mode, [size = (width, height)] and the pixel grid.  Only
    the values of [data] at [0 <= x < width], [0 <= y < height] matter. *)
Record Image : Type := mkImage {
  mode : Mode;
  size : Z * Z;
  data : Z → Z → Pixel
}.

Definition width (img : Image) : Z := (size img).1.
Definition height (img : Image) : Z := (size img).2.

Definition in_bounds (img : Image) (x y : Z) : bool :=
  bool_decide (0 ≤ x < width img) && bool_decide (0 ≤ y < height img).

(** [img.load()[x, y]]: negative indices count from the far edge, anything
    still outside the grid raises [IndexError]. *)
Definition getitem (img : Image) (x y : Z) : result Pixel :=
  let x := if bool_decide (x < 0) then width img + x else x in
  let y := if bool_decide (y < 0) then height img + y else y in
  if in_bounds img x y then Ok (data img x y) else Err IndexError.

(** ** The circle detector, [find_circle_bounds] *)

(** [p[:3]]: slicing an [int] is a [TypeError]. *)
Definition slice3 (p : Pixel) : result (list Z) :=
  match p with
  | PInt _ => Err TypeError
  | PTuple bands => Ok (take 3 bands)
  end.

(** [r, g, b = s]: unpacking needs exactly three values. *)
Definition unpack3 (s : list Z) : result (Z * Z * Z) :=
  match s with
  | [r; g; b] => Ok (r, g, b)
  | _ => Err ValueError
  end.

(** [(r + g + b) / 3 > threshold].  The division is Python's true
    division; it is taken here over the rationals, which agrees with the
    floating-point comparison for band values and thresholds far below
    2^51. *)
Definition average (r g b : Z) : Q := (inject_Z (r + g + b) / 3)%Q.

Definition exceeds (r g b threshold : Z) : bool :=
  negb (Qle_bool (average r g b) (inject_Z threshold)).

(** The state of one scan: [(first, last)]. *)
Definition Span : Type := option Z * option Z.

(** One iteration of either scanning loop; [px i] is the pixel read at
    index [i] ([pixels[x, cy]] or [pixels[cx, y]]). *)
Definition scan_body (px : Z → result Pixel) (threshold : Z)
    (st : Span) (i : Z) : result Span :=
  p ← px i;
  s ← slice3 p;
  '(r, g, b) ← unpack3 s;
  mret (if exceeds r g b threshold
        then (match st.1 with None => Some i | Some f => Some f end, Some i)
        else st).

Definition scan (px : Z → result Pixel) (threshold n : Z) : result Span :=
  for_each (scan_body px threshold) (range n) (None, None).

(** [a + b] and [a - b] on possibly-[None] operands. *)
Definition py_add (a b : option Z) : result Z :=
  match a, b with
  | Some x, Some y => Ok (x + y)
  | _, _ => Err TypeError
  end.

Definition py_sub (a b : option Z) : result Z :=
  match a, b with
  | Some x, Some y => Ok (x - y)
  | _, _ => Err TypeError
  end.

Definition default_threshold : Z := 50.

Definition find_circle_bounds (img : Image) (threshold : Z)
  : result (Z * Z * Z) :=
  let '(w, h) := size img in
  let cy := h `div` 2 in
  '(first_h, last_h) ← scan (λ x, getitem img x cy) threshold w;
  let cx := w `div` 2 in
  '(first_v, last_v) ← scan (λ y, getitem img cx y) threshold h;
  sum_h ← py_add first_h last_h;
  let center_x := sum_h `div` 2 in
  sum_v ← py_add first_v last_v;
  let center_y := sum_v `div` 2 in
  span_h ← py_sub last_h first_h;
  span_v ← py_sub last_v first_v;
  let radius := Z.max (span_h `div` 2) (span_v `div` 2) + 5 in
  mret (center_x, center_y, radius).

(** ** Paths ([os.path] on POSIX) *)

Definition sep : ascii := "/"%char.

Definition is_sep (c : ascii) : bool := bool_decide (c = sep).

(** [p.rfind('/') + 1]: the length of the prefix that ends with the last
    separator, 0 when there is none. *)
Fixpoint rfind_end (p : string) : nat :=
  match p with
  | EmptyString => 0%nat
  | String c p' =>
      match rfind_end p' with
      | O => if is_sep c then 1%nat else 0%nat
      | S k => S (S k)
      end
  end.

(** [s != '/' * len(s)] is the negation of this. *)
Fixpoint all_sep (s : string) : bool :=
  match s with
  | EmptyString => true
  | String c s' => is_sep c && all_sep s'
  end.

(** [s.rstrip('/')] *)
Fixpoint rstrip_sep (s : string) : string :=
  match s with
  | EmptyString => EmptyString
  | String c s' =>
      match rstrip_sep s' with
      | EmptyString => if is_sep c then EmptyString else String c EmptyString
      | r => String c r
      end
  end.

(** [os.path.dirname(p)] and [os.path.basename(p)] *)
Definition dirname (p : string) : string :=
  let i := rfind_end p in
  let head := substring 0 i p in
  if negb (bool_decide (head = EmptyString)) && negb (all_sep head)
  then rstrip_sep head
  else head.

Definition basename (p : string) : string :=
  let i := rfind_end p in
  substring i (String.length p - i) p.

Definition startswith_sep (s : string) : bool :=
  match s with
  | String c _ => is_sep c
  | EmptyString => false
  end.

Fixpoint endswith_sep (s : string) : bool :=
  match s with
  | EmptyString => false
  | String c EmptyString => is_sep c
  | String _ s' => endswith_sep s'
  end.

(** [os.path.join(a, b)]: an absolute [b] replaces [a]; otherwise [b] is
    appended, after a separator unless [a] is empty or ends with one. *)
Definition join (a b : string) : string :=
  if startswith_sep b then b
  else if bool_decide (a = EmptyString) || endswith_sep a then (a +:+ b)%string
  else (a +:+ String sep b)%string.

(** A base name: no separator in it. *)
Fixpoint sep_free (s : string) : bool :=
  match s with
  | EmptyString => true
  | String c s' => negb (is_sep c) && sep_free s'
  end.

(** ** Files, standard output and the process monad *)

(** What the imaging library raises on a file it cannot open or load: an
    [OSError] (not a picture, a directory, truncated data, ...), a
    [DecompressionBombError], or an exception of some other class. *)
Inductive LibExn : Type :=
  | LibOSError
  | LibDecompressionBombError
  | LibOther (class : string).

Definition lib_exn (e : LibExn) : Exn :=
  match e with
  | LibOSError => OSError
  | LibDecompressionBombError => DecompressionBombError
  | LibOther class => OtherError class
  end.

(** How a file that does not decode fails.  [Image.open] only reads the
    header: either it raises there, or it returns an image whose size is
    known and the first operation that needs the pixel data raises. *)
Inductive Undecodable : Type :=
  | OpenRaises (e : LibExn)
  | LoadRaises (sz : Z * Z) (e : LibExn).

(** A file: the picture it decodes to (if it does), its size in bytes,
    and how it fails when it does not decode. *)
Record File : Type := mkFileOf {
  content : option Image;
  nbytes : Z;
  failure : Undecodable
}.

(** A file that either decodes or is refused by [Image.open] with an
    [OSError]. *)
Definition mkFile (content : option Image) (nbytes : Z) : File :=
  mkFileOf content nbytes (OpenRaises LibOSError).

(** The lines the script prints, by kind. *)
Inductive Msg : Type :=
  | MsgUsage                              (* [print(__doc__)] *)
  | MsgNotFound (src : string)            (* [Error: {src} not found] *)
  | MsgSource (w h : Z)                   (* source dimensions *)
  | MsgCircle (cx cy radius : Z)          (* detected circle *)
  | MsgFile (name : string) (kb : Z)      (* output file and its size *)
  | MsgDone.

Record World : Type := mkWorld {
  fs : gmap string File;
  stdout : list Msg
}.

Inductive Outcome (A : Type) : Type :=
  | Return (a : A) (w : World)
  | Raise (e : Exn) (w : World).

Arguments Return {A} a w.
Arguments Raise {A} e w.

Definition Proc (A : Type) : Type := World → Outcome A.

#[global] Instance Proc_ret : MRet Proc := λ A a w, Return a w.
#[global] Instance Proc_bind : MBind Proc := λ A B f m w,
  match m w with
  | Return a w' => f a w'
  | Raise e w' => Raise e w'
  end.

Definition raise {A} (e : Exn) : Proc A := λ w, Raise e w.

Definition lift {A} (m : result A) : Proc A := λ w,
  match m with
  | Ok a => Return a w
  | Err e => Raise e w
  end.

Definition print (m : Msg) : Proc unit := λ w,
  Return tt (mkWorld (fs w) (stdout w ++ [m])).

(** Whether a run returns normally, the world it ends in, the exception it
    ends with, and the status the process exits with: 0 after a normal
    return, the argument of [sys.exit], and 1 for any other uncaught
    exception. *)
Definition completes {A} (o : Outcome A) : Prop :=
  match o with
  | Return _ _ => True
  | Raise _ _ => False
  end.

Definition final_world {A} (o : Outcome A) : World :=
  match o with
  | Return _ w => w
  | Raise _ w => w
  end.

Definition raised {A} (o : Outcome A) : option Exn :=
  match o with
  | Return _ _ => None
  | Raise e _ => Some e
  end.

Definition exit_status {A} (o : Outcome A) : Z :=
  match o with
  | Return _ _ => 0
  | Raise (SystemExit n) _ => n
  | Raise _ _ => 1
  end.

(** [os.path.exists(p)] and [os.path.getsize(p)] *)
Definition path_exists (p : string) : Proc bool := λ w,
  Return (bool_decide (is_Some (fs w !! p))) w.

Definition getsize (p : string) : Proc Z := λ w,
  match fs w !! p with
  | Some f => Return (nbytes f) w
  | None => Raise OSError w
  end.

(** [Image.open(path)] is lazy.  A missing file is an [OSError]; otherwise
    the header is read, which raises or gives the size, and the pixel data
    is decoded by the first operation that needs it ([load]). *)
Record Opened : Type := mkOpened {
  header_size : Z * Z;
  load : result Image
}.

Definition Image_open (p : string) : Proc Opened := λ w,
  match fs w !! p with
  | Some f =>
      match content f with
      | Some img => Return (mkOpened (size img) (Ok img)) w
      | None =>
          match failure f with
          | OpenRaises e => Raise (lib_exn e) w
          | LoadRaises sz e => Return (mkOpened sz (Err (lib_exn e))) w
          end
      end
  | None => Raise OSError w
  end.

(** ** The PIL operations of the pipeline *)

Definition Box : Type := Z * Z * Z * Z.

(** [img.crop((l, t, r, b))]: a [(r - l) x (b - t)] image; positions
    outside the source are filled with zeros; inverted boxes are refused. *)
Definition Image_crop (img : Image) (box : Box) : result Image :=
  let '(l, t, r, b) := box in
  if bool_decide (r < l) then Err ValueError
  else if bool_decide (b < t) then Err ValueError
  else Ok (mkImage (mode img) (r - l, b - t)
             (λ x y, if in_bounds img (x + l) (y + t)
                     then data img (x + l) (y + t)
                     else zero_pixel (mode img))).

(** [Image.new(mode, size, color)] *)
Definition Image_new (m : Mode) (sz : Z * Z) (color : Pixel) : result Image :=
  if bool_decide (sz.1 < 0 ∨ sz.2 < 0) then Err ValueError
  else Ok (mkImage m sz (λ _ _, color)).

(** The value of a pixel of an "L" image, and band [i] of a pixel. *)
Definition gray (p : Pixel) : Z :=
  match p with
  | PInt v => v
  | PTuple bands => default 0 (head bands)
  end.

Definition band (i : nat) (p : Pixel) : Z :=
  match p with
  | PInt v => v
  | PTuple bands => default 0 (bands !! i)
  end.

(** [img.putalpha(mask)] on an RGBA image: band 3 of every pixel is
    replaced by the mask value there; the other bands stay. *)
Definition set_alpha (p : Pixel) (a : Z) : Pixel :=
  PTuple [band 0 p; band 1 p; band 2 p; a].

Definition alpha (p : Pixel) : option Z :=
  match p with
  | PTuple bands => bands !! 3%nat
  | PInt _ => None
  end.

Definition Image_putalpha (img mask : Image) : Image :=
  mkImage (mode img) (size img)
    (λ x y, set_alpha (data img x y) (gray (data mask x y))).

(** What the system does with a write: it goes through, or it fails.  A
    write that fails leaves its target as it was (the target could not be
    opened: no such directory, a directory at the path, no permission; or
    the file was new and is removed again), or leaves some other file
    there (an existing target is truncated on opening, and a write that
    stops half-way leaves a part). *)
Inductive Write :=
  | Accepted
  | Failed (residue : option File).

Definition left_at (p : string) (residue : option File)
    (files : gmap string File) : gmap string File :=
  match residue with
  | Some f => <[p := f]> files
  | None => files
  end.

(** [img.save(path, "PNG", optimize=True)]: the file at [path] is created
    or replaced; [png_size] is the length of the encoding.  [write_to]
    tells, for the files present, the path and the picture, what the system
    does with the write; when it fails the call raises [OSError]. *)
Definition Image_save (png_size : Image → Z)
    (write_to : gmap string File → string → Image → Write)
    (img : Image) (p : string) : Proc unit := λ w,
  match write_to (fs w) p img with
  | Accepted =>
      Return tt (mkWorld (<[p := mkFile (Some img) (png_size img)]> (fs w))
                         (stdout w))
  | Failed residue =>
      Raise OSError (mkWorld (left_at p residue (fs w)) (stdout w))
  end.

Section Pipeline.

(** What the script takes from PIL and from the system without reading
    it: the pixel values of a mode conversion, the set of pixels
    [ImageDraw.ellipse] fills for a bounding box, the pixel values of a
    Lanczos resize, the length of a PNG encoding, and what becomes of a
    write. *)
Variable convert_data : Image → Mode → Z → Z → Pixel.
Variable ellipse_fill : Box → Z → Z → bool.
Variable lanczos : Image → Z * Z → Z → Z → Pixel.
Variable png_size : Image → Z.
Variable write_to : gmap string File → string → Image → Write.

Definition Image_convert (img : Image) (m : Mode) : Image :=
  mkImage m (size img) (convert_data img m).

(** [dst.paste(src, (ox, oy))]: [src] is converted to the mode of [dst]
    when the modes differ, then copied over the region at [(ox, oy)]. *)
Definition Image_paste (dst src : Image) (pos : Z * Z) : Image :=
  let '(ox, oy) := pos in
  let src := if decide (mode src = mode dst) then src
             else Image_convert src (mode dst) in
  mkImage (mode dst) (size dst)
    (λ x y, if in_bounds src (x - ox) (y - oy)
            then data src (x - ox) (y - oy)
            else data dst x y).

(** [ImageDraw.Draw(img).ellipse(box, fill)]: the box must not be
    inverted. *)
Definition ImageDraw_ellipse (img : Image) (box : Box) (fill : Z)
  : result Image :=
  let '(x0, y0, x1, y1) := box in
  if bool_decide (x1 < x0) then Err ValueError
  else if bool_decide (y1 < y0) then Err ValueError
  else Ok (mkImage (mode img) (size img)
             (λ x y, if in_bounds img x y && ellipse_fill box x y
                     then PInt fill
                     else data img x y)).

(** [img.resize(size, Image.LANCZOS)] *)
Definition Image_resize (img : Image) (sz : Z * Z) : Image :=
  mkImage (mode img) sz (lanczos img sz).

(** Lines 50-53: the square crop the detector runs on. *)
Definition square_crop (img : Image) : result Image :=
  let '(w, h) := size img in
  let square_size := h in
  let left := (w - square_size) `div` 2 in
  Image_crop img (left, 0, left + square_size, square_size).

(** Lines 59-64: the tight crop around the detected circle, clamped to
    the square. *)
Definition tight_crop (square_size : Z) (cropped : Image)
    (circle : Z * Z * Z) : result Image :=
  let '(cx, cy, radius) := circle in
  let crop_l := Z.max 0 (cx - radius) in
  let crop_t := Z.max 0 (cy - radius) in
  let crop_r := Z.min square_size (cx + radius) in
  let crop_b := Z.min square_size (cy + radius) in
  Image_crop cropped (crop_l, crop_t, crop_r, crop_b).

(** Lines 66-77: pad to a square RGBA canvas and apply the mask. *)
Definition masked_canvas (tight : Image) : result Image :=
  let '(tw, th) := size tight in
  let max_dim := Z.max tw th in
  square_img ← Image_new M_RGBA (max_dim, max_dim) (PTuple [0; 0; 0; 0]);
  let square_img :=
    Image_paste square_img tight
      ((max_dim - tw) `div` 2, (max_dim - th) `div` 2) in
  mask ← Image_new M_L (max_dim, max_dim) (PInt 0);
  let margin := 8 in
  mask ← ImageDraw_ellipse mask
           (margin, margin, max_dim - margin, max_dim - margin) 255;
  mret (Image_putalpha square_img mask).

Definition path_1x (src_path output_name : string) : string :=
  join (dirname src_path) (output_name +:+ ".png")%string.

Definition path_2x (src_path output_name : string) : string :=
  join (dirname src_path) (output_name +:+ "@2x.png")%string.

Definition report_size (p : string) : Proc unit :=
  sz ← getsize p;
  print (MsgFile (basename p) (sz `div` 1024)).

Definition process_badge (src_path output_name : string) : Proc unit :=
  img ← Image_open src_path;
  let '(w, h) := header_size img in
  print (MsgSource w h);;
  img ← lift (load img);
  cropped ← lift (square_crop img);
  circle ← lift (find_circle_bounds cropped default_threshold);
  let '(cx, cy, radius) := circle in
  print (MsgCircle cx cy radius);;
  tight ← lift (tight_crop h cropped circle);
  square_img ← lift (masked_canvas tight);
  let p1 := path_1x src_path output_name in
  let p2 := path_2x src_path output_name in
  Image_save png_size write_to (Image_resize square_img (256, 256)) p1;;
  Image_save png_size write_to (Image_resize square_img (512, 512)) p2;;
  report_size p1;;
  report_size p2.

(** What a run that completes leaves behind: the two files, and the four
    lines printed. *)
Definition file_of (img : Image) : File := mkFile (Some img) (png_size img).

Definition written_1x (src_path output_name : string) (canvas : Image)
    (files : gmap string File) : gmap string File :=
  <[path_1x src_path output_name :=
      file_of (Image_resize canvas (256, 256))]> files.

Definition written (src_path output_name : string) (canvas : Image)
    (files : gmap string File) : gmap string File :=
  <[path_2x src_path output_name := file_of (Image_resize canvas (512, 512))]>
    (<[path_1x src_path output_name :=
         file_of (Image_resize canvas (256, 256))]> files).

(** What becomes of the two writes of a run from [files]: the first one,
    and the second one after the first went through. *)
Definition write_1x (src_path output_name : string) (canvas : Image)
    (files : gmap string File) : Write :=
  write_to files (path_1x src_path output_name)
    (Image_resize canvas (256, 256)).

Definition write_2x (src_path output_name : string) (canvas : Image)
    (files : gmap string File) : Write :=
  write_to (written_1x src_path output_name canvas files)
    (path_2x src_path output_name) (Image_resize canvas (512, 512)).

Definition printed (src_path output_name : string) (img : Image)
    (circle : Z * Z * Z) (canvas : Image) : list Msg :=
  [ MsgSource (width img) (height img);
    MsgCircle circle.1.1 circle.1.2 circle.2;
    MsgFile (basename (path_1x src_path output_name))
      (png_size (Image_resize canvas (256, 256)) `div` 1024);
    MsgFile (basename (path_2x src_path output_name))
      (png_size (Image_resize canvas (512, 512)) `div` 1024) ].

(** The [__main__] block; [argv] is [sys.argv], program name included. *)
Definition main (argv : list string) : Proc unit :=
  if bool_decide (length argv ≠ 3%nat) then
    print MsgUsage;;
    raise (SystemExit 1)
  else
    match argv !! 1%nat, argv !! 2%nat with
    | Some src, Some name =>
        found ← path_exists src;
        if negb found then
          print (MsgNotFound src);;
          raise (SystemExit 1)
        else
          process_badge src name;;
          print MsgDone
    | _, _ => raise IndexError
    end.

End Pipeline.

(** ** Vocabulary of the specification *)

(** The scanned lines: the pixels of row [y] and of column [x]. *)
Definition row (img : Image) (y : Z) : Z → result Pixel :=
  λ x, getitem img x y.
Definition column (img : Image) (x : Z) : Z → result Pixel :=
  λ y, getitem img x y.

(** A pixel with (at least) the bands R, G, B whose average strictly
    exceeds the threshold, resp. is at or below it. *)
Definition above (threshold : Z) (p : Pixel) : Prop :=
  ∃ r g b rest,
    p = PTuple (r :: g :: b :: rest) ∧ (inject_Z threshold < average r g b)%Q.
Definition at_or_below (threshold : Z) (p : Pixel) : Prop :=
  ∃ r g b rest,
    p = PTuple (r :: g :: b :: rest) ∧ (average r g b <= inject_Z threshold)%Q.

(** The pixel read at index [i] is above the threshold. *)
Definition brighter (px : Z → result Pixel) (threshold i : Z) : Prop :=
  ∃ p, px i = Ok p ∧ above threshold p.

(** The same, as a test. *)
Definition bright (px : Z → result Pixel) (threshold i : Z) : bool :=
  match px i with
  | Ok (PTuple (r :: g :: b :: _)) => exceeds r g b threshold
  | _ => false
  end.

(** The pixel read at index [i] can be unpacked into R, G, B. *)
Definition readable (px : Z → result Pixel) (i : Z) : Prop :=
  ∃ r g b rest, px i = Ok (PTuple (r :: g :: b :: rest)).

(** [a] is the first (resp. [b] the last) index below [n] satisfying [P]. *)
Definition first_in (P : Z → Prop) (n a : Z) : Prop :=
  0 ≤ a < n ∧ P a ∧ ∀ i, 0 ≤ i < a → ¬ P i.
Definition last_in (P : Z → Prop) (n b : Z) : Prop :=
  0 ≤ b < n ∧ P b ∧ ∀ i, b < i < n → ¬ P i.

(** What a scan over the indices below [n] has found. *)
Definition scanned (px : Z → result Pixel) (t n : Z) (st : Span) : Prop :=
  (st = (None, None) ∧ ∀ i, 0 ≤ i < n → ¬ brighter px t i) ∨
  (∃ a b, st = (Some a, Some b) ∧
          first_in (brighter px t) n a ∧ last_in (brighter px t) n b).

(** A synthetic picture: a solid disk of radius [R] on a plain background.
    The centre is [(A/2, B/2)], given in half pixels so that it may sit on
    a pixel or between two; a pixel belongs to the disk when its distance
    to the centre is at most [R]. *)
Definition in_disk (A B R x y : Z) : bool :=
  bool_decide ((2 * x - A) ^ 2 + (2 * y - B) ^ 2 ≤ (2 * R) ^ 2).

Definition disk_image (m : Mode) (w h A B R : Z) (fg bg : Pixel) : Image :=
  mkImage m (w, h) (λ x y, if in_disk A B R x y then fg else bg).

(** A 4x4 picture without any bright pixel. *)
Definition dark_image : Image :=
  mkImage M_RGB (4, 4) (λ _ _, PTuple [10; 20; 30]).

(** A small test image: 7x5, RGB, one bright 3x3 block. *)
Definition block_image : Image :=
  mkImage M_RGB (7, 5)
    (λ x y, if bool_decide (2 ≤ x ≤ 4 ∧ 1 ≤ y ≤ 3)
            then PTuple [200; 200; 200] else PTuple [10; 20; 30]).

(** ** An instance to run the pipeline on

    Simple stand-ins for the parameters (opaque conversion, the ideal
    inscribed ellipse, nearest-neighbour resizing, four bytes per pixel,
    every write going through) and a world holding one source picture: a
    64x48 RGB image with a bright disk of radius 10 in its middle. *)
Definition demo_convert (img : Image) (m : Mode) (x y : Z) : Pixel :=
  match m with
  | M_RGBA =>
      let p := data img x y in PTuple [band 0 p; band 1 p; band 2 p; 255]
  | _ => data img x y
  end.

Definition demo_ellipse (box : Box) (x y : Z) : bool :=
  let '(x0, y0, x1, y1) := box in
  bool_decide (((2 * x - (x0 + x1)) * (y1 - y0)) ^ 2
               + ((2 * y - (y0 + y1)) * (x1 - x0)) ^ 2
               ≤ ((x1 - x0) * (y1 - y0)) ^ 2).

Definition demo_resize (img : Image) (sz : Z * Z) (x y : Z) : Pixel :=
  data img ((x * width img) `div` sz.1) ((y * height img) `div` sz.2).

Definition demo_png_size (img : Image) : Z := 4 * width img * height img.

Definition demo_write_to (files : gmap string File) (p : string)
    (img : Image) : Write := Accepted.

Definition demo_source : Image :=
  disk_image M_RGB 64 48 64 48 10 (PTuple [250; 240; 230]) (PTuple [5; 5; 5]).

Definition demo_world : World :=
  mkWorld {[ "badges/source.png"%string := mkFile (Some demo_source) 9216 ]} [].

Definition demo_process_badge : string → string → Proc unit :=
  process_badge demo_convert demo_ellipse demo_resize demo_png_size
    demo_write_to.

Definition demo_main : list string → Proc unit :=
  main demo_convert demo_ellipse demo_resize demo_png_size demo_write_to.

(** ** More pictures to try the detector on *)

(** A 6x4 greyscale picture: every pixel is an [int]. *)
Definition grey_image : Image := mkImage M_L (6, 4) (λ _ _, PInt 200).

(** The same, with an alpha band: every pixel is a pair. *)
Definition grey_alpha_image : Image :=
  mkImage M_LA (6, 4) (λ _ _, PTuple [200; 255]).

(** [block_image] with an alpha band that varies, and with other pixels
    away from the two midlines (row 2 and column 3). *)
Definition block_image_rgba : Image :=
  mkImage M_RGBA (7, 5)
    (λ x y, if bool_decide (x = 3 ∨ y = 2)
            then match data block_image x y with
                 | PTuple bands => PTuple (bands ++ [x + y])
                 | PInt v => PInt v
                 end
            else PTuple [255; 0; 255; 7]).

(** A 5x3 picture that is bright everywhere. *)
Definition white_image : Image :=
  mkImage M_RGB (5, 3) (λ _ _, PTuple [255; 255; 255]).

(** Pictures without pixels. *)
Definition empty_image : Image := mkImage M_RGB (0, 0) (λ _ _, PTuple [0; 0; 0]).
Definition flat_image : Image := mkImage M_RGB (3, 0) (λ _ _, PTuple [0; 0; 0]).
Definition thin_image : Image := mkImage M_RGB (0, 3) (λ _ _, PTuple [0; 0; 0]).

(** ** More worlds to run the pipeline on *)

(** A 20x18 RGBA picture with a half-transparent gradient. *)
Definition gradient_rgba : Image :=
  mkImage M_RGBA (20, 18) (λ x y, PTuple [x; y; x + y; 128]).

(** A world whose source picture has no bright pixel. *)
Definition dark_world : World :=
  mkWorld {[ "badges/source.png"%string := mkFile (Some dark_image) 48 ]} [].

(** A world whose source file has a good header and broken pixel data,
    and one whose source is refused on opening as a decompression bomb. *)
Definition truncated_world : World :=
  mkWorld {[ "badges/source.png"%string :=
               mkFileOf None 100 (LoadRaises (64, 48) LibOSError) ]} [].

Definition bomb_world : World :=
  mkWorld {[ "badges/source.png"%string :=
               mkFileOf None 100 (OpenRaises LibDecompressionBombError) ]} [].

(** A disk with room for the small picture only: the write of a larger
    one stops half-way and leaves a part. *)
Definition small_disk (files : gmap string File) (p : string) (img : Image)
    : Write :=
  if bool_decide (width img * height img ≤ 65536) then Accepted
  else Failed (Some (mkFile None 4096)).

(** A square picture with a bright disk of radius 10 in its middle. *)
Definition demo_square : Image :=
  disk_image M_RGB 48 48 48 48 10 (PTuple [250; 240; 230]) (PTuple [5; 5; 5]).

(** * Properties *)

(** [lia] after turning the floor divisions into their defining
    inequalities. *)
Ltac div_lia := Z.to_euclidean_division_equations; lia.

(** ** The error monad and the loop *)

Lemma bind_Ok {A B} (m : result A) (f : A → result B) (b : B) :
  m ≫= f = Ok b → ∃ a, m = Ok a ∧ f a = Ok b.
Proof. destruct m as [a|e]; simpl; [eauto | discriminate]. Qed.

Lemma for_each_app {A S} (body : S → A → result S) xs ys st :
  for_each body (xs ++ ys) st = for_each body xs st ≫= for_each body ys.
Proof.
  revert st. induction xs as [|x xs IH]; intros st; simpl; [done|].
  destruct (body st x) as [st'|e]; simpl; [apply IH | done].
Qed.

(** ** The brightness test *)

Lemma exceeds_lt r g b t :
  exceeds r g b t = true ↔ (inject_Z t < average r g b)%Q.
Proof.
  unfold exceeds. rewrite negb_true_iff, <- not_true_iff_false, Qle_bool_iff.
  split; [apply Qnot_le_lt | apply Qlt_not_le].
Qed.

(** Over the integers the test reads [r + g + b > 3 * threshold]. *)
Lemma exceeds_Z r g b t : exceeds r g b t = true ↔ 3 * t < r + g + b.
Proof.
  rewrite exceeds_lt. unfold average, Qlt, Qdiv, Qmult, Qinv, inject_Z; simpl.
  lia.
Qed.

Lemma bright_brighter px t i : bright px t i = true ↔ brighter px t i.
Proof.
  unfold bright, brighter, above. split.
  - destruct (px i) as [[v|[|r [|g [|b rest]]]]|e]; try discriminate.
    intros H%exceeds_lt. eauto 8.
  - intros (p & -> & r & g & b & rest & -> & H). by apply exceeds_lt.
Qed.

Lemma brighter_readable px t i : brighter px t i → readable px i.
Proof. intros (p & H & r & g & b & rest & -> & _). red; eauto. Qed.

Lemma not_exceeds_le r g b t :
  exceeds r g b t = false ↔ (average r g b <= inject_Z t)%Q.
Proof. unfold exceeds. by rewrite negb_false_iff, Qle_bool_iff. Qed.

(** ** One scan *)

(** An iteration that does not raise either records the index or leaves
    the state alone, according to the brightness test. *)
Lemma scan_body_Ok px t st i st' :
  scan_body px t st i = Ok st' →
  readable px i ∧
  st' = if bright px t i
        then (match st.1 with None => Some i | Some f => Some f end, Some i)
        else st.
Proof.
  unfold scan_body, bright, readable. intros H.
  apply bind_Ok in H as (p & -> & H).
  apply bind_Ok in H as (s & Hs & H).
  apply bind_Ok in H as ([[r g] b] & Hu & H).
  destruct p as [v|bands]; [discriminate|]. injection Hs as <-.
  destruct bands as [|r' [|g' [|b' rest]]]; try discriminate.
  injection Hu as -> -> ->. injection H as <-. eauto 6.
Qed.

Lemma scan_body_readable px t st i :
  readable px i → ∃ st', scan_body px t st i = Ok st'.
Proof.
  intros (r & g & b & rest & H). unfold scan_body. rewrite H. simpl. eauto.
Qed.

Lemma scan_prefix px t (k : nat) st :
  for_each (scan_body px t) (seqZ 0 (Z.of_nat k)) (None, None) = Ok st →
  scanned px t (Z.of_nat k) st ∧ ∀ i, 0 ≤ i < Z.of_nat k → readable px i.
Proof.
  revert st. induction k as [|k IH]; intros st.
  - simpl. intros [= <-]. split; [left; split; [done | lia] | lia].
  - rewrite seqZ_S, for_each_app. intros H.
    apply bind_Ok in H as (st1 & H1 & H). simpl in H.
    apply bind_Ok in H as (st2 & H2 & [= <-]).
    apply IH in H1 as [Hsc Hrd].
    apply scan_body_Ok in H2 as [Hr ->]. rewrite Z.add_0_l in *.
    split.
    2:{ intros i Hi. destruct (decide (i = Z.of_nat k)) as [->|]; [done|].
        apply Hrd. lia. }
    destruct (bright px t (Z.of_nat k)) eqn:Hb.
    + apply bright_brighter in Hb. right.
      destruct Hsc as [[-> Hno] | (a & b & -> & Ha & Hl)]; simpl.
      * exists (Z.of_nat k), (Z.of_nat k). repeat split; try done; try lia.
        all: intros i Hi; apply Hno; lia.
      * exists a, (Z.of_nat k). destruct Ha as (? & ? & ?).
        repeat split; try done; try lia.
    + assert (¬ brighter px t (Z.of_nat k)) as Hnb.
      { rewrite <- bright_brighter. congruence. }
      destruct Hsc as [[-> Hno] | (a & b & -> & Ha & Hl)].
      * left. split; [done|]. intros i Hi.
        destruct (decide (i = Z.of_nat k)) as [->|]; [done|]. apply Hno. lia.
      * right. exists a, b. destruct Ha as (? & ? & ?), Hl as (? & ? & Hl).
        repeat split; try done; try lia.
        intros i Hi. destruct (decide (i = Z.of_nat k)) as [->|]; [done|].
        apply Hl. lia.
Qed.

Lemma scan_Ok px t n st :
  scan px t n = Ok st →
  scanned px t n st ∧ ∀ i, 0 ≤ i < n → readable px i.
Proof.
  unfold scan, range. intros H. destruct (decide (0 ≤ n)) as [Hn|Hn].
  - destruct (Z_of_nat_complete n Hn) as [k ->]. by apply scan_prefix.
  - rewrite seqZ_nil in H by lia. simpl in H. injection H as <-.
    split; [left; split; [done|] |]; intros; lia.
Qed.

(** A scan raises only when some pixel on the line cannot be unpacked. *)
Lemma scan_total px t n :
  (∀ i, 0 ≤ i < n → readable px i) → ∃ st, scan px t n = Ok st.
Proof.
  unfold scan, range. intros Hr. destruct (decide (0 ≤ n)) as [Hn|Hn].
  2:{ rewrite seqZ_nil by lia. simpl. eauto. }
  destruct (Z_of_nat_complete n Hn) as [k ->]. clear Hn.
  induction k as [|k IH]; [simpl; eauto|].
  rewrite seqZ_S, for_each_app.
  destruct IH as [st ->]; [intros; apply Hr; lia|]. simpl.
  destruct (scan_body_readable px t st (0 + Z.of_nat k)) as [st' ->].
  { apply Hr. lia. }
  simpl. eauto.
Qed.

(** ** The detector *)

Lemma first_le_last (P : Z → Prop) n a b :
  first_in P n a → last_in P n b → a ≤ b.
Proof.
  intros (Ha & _ & Hmin) (Hb & HP & _).
  destruct (decide (a ≤ b)) as [|Hlt]; [done|]. destruct (Hmin b); [lia|done].
Qed.

Lemma scanned_None px t n a :
  scanned px t n (None, a) → a = None ∧ ∀ i, 0 ≤ i < n → ¬ brighter px t i.
Proof. intros [[[= ->] H] | (? & ? & [=] & _)]. done. Qed.

Lemma scanned_Some px t n a l :
  scanned px t n (Some a, l) →
  ∃ b, l = Some b ∧ first_in (brighter px t) n a ∧ last_in (brighter px t) n b.
Proof. intros [[[=] _] | (? & b & [= -> ->] & ? & ?)]. eauto. Qed.

(** The two scans and the arithmetic of lines 40-42, with the size taken
    apart. *)
Lemma find_circle_bounds_unfold img t :
  find_circle_bounds img t =
    '(first_h, last_h) ← scan (row img (height img `div` 2)) t (width img);
    '(first_v, last_v) ← scan (column img (width img `div` 2)) t (height img);
    sum_h ← py_add first_h last_h;
    sum_v ← py_add first_v last_v;
    span_h ← py_sub last_h first_h;
    span_v ← py_sub last_v first_v;
    mret (sum_h `div` 2, sum_v `div` 2,
          Z.max (span_h `div` 2) (span_v `div` 2) + 5).
Proof.
  unfold find_circle_bounds, width, height. by destruct (size img) as [w h].
Qed.

(** A scan that ends with both bounds set has found the first and the
    last bright index of its line. *)
Lemma scan_Some_bounds px t n a b :
  scan px t n = Ok (Some a, Some b) →
  first_in (brighter px t) n a ∧ last_in (brighter px t) n b.
Proof.
  intros [H _]%scan_Ok. by apply scanned_Some in H as (? & [= <-] & ? & ?).
Qed.

(** When the detector returns, both scans have ended with their bounds
    set and the result is the arithmetic of lines 40-42 on them. *)
Lemma find_circle_bounds_scans img t cx cy radius :
  find_circle_bounds img t = Ok (cx, cy, radius) →
  ∃ first_h last_h first_v last_v,
    scan (row img (height img `div` 2)) t (width img)
      = Ok (Some first_h, Some last_h) ∧
    scan (column img (width img `div` 2)) t (height img)
      = Ok (Some first_v, Some last_v) ∧
    cx = (first_h + last_h) `div` 2 ∧
    cy = (first_v + last_v) `div` 2 ∧
    radius = Z.max ((last_h - first_h) `div` 2) ((last_v - first_v) `div` 2) + 5.
Proof.
  rewrite find_circle_bounds_unfold. intros H.
  apply bind_Ok in H as ([fh lh] & Hh & H).
  apply bind_Ok in H as ([fv lv] & Hv & H).
  destruct fh as [fh|], lh as [lh|]; try discriminate.
  destruct fv as [fv|], lv as [lv|]; try discriminate.
  simpl in H. injection H as <- <- <-.
  by exists fh, lh, fv, lv.
Qed.

(** The midpoint of a span lies on the scanned line and its half-length
    is not negative. *)
Lemma span_in_range (P : Z → Prop) n a b :
  first_in P n a → last_in P n b →
  0 ≤ (a + b) `div` 2 < n ∧ 0 ≤ (b - a) `div` 2.
Proof.
  intros Ha Hb. pose proof (first_le_last _ _ _ _ Ha Hb).
  destruct Ha as (? & _), Hb as (? & _). div_lia.
Qed.

(** Conversely the detector returns as soon as every pixel on the two
    midlines can be unpacked and each midline has a bright pixel. *)
Lemma find_circle_bounds_total img t :
  (∀ x, 0 ≤ x < width img → readable (row img (height img `div` 2)) x) →
  (∀ y, 0 ≤ y < height img → readable (column img (width img `div` 2)) y) →
  (∃ x, 0 ≤ x < width img ∧ brighter (row img (height img `div` 2)) t x) →
  (∃ y, 0 ≤ y < height img ∧ brighter (column img (width img `div` 2)) t y) →
  is_Ok (find_circle_bounds img t).
Proof.
  intros Hrh Hrv (x & Hx & Hbx) (y & Hy & Hby).
  rewrite find_circle_bounds_unfold.
  destruct (scan_total _ t _ Hrh) as [[fh lh] Hh].
  destruct (scan_total _ t _ Hrv) as [[fv lv] Hv].
  rewrite Hh, Hv. simpl.
  apply scan_Ok in Hh as [Hh _]. apply scan_Ok in Hv as [Hv _].
  destruct fh as [fh|]; [|apply scanned_None in Hh as [_ Hh]; by destruct (Hh x)].
  destruct fv as [fv|]; [|apply scanned_None in Hv as [_ Hv]; by destruct (Hv y)].
  apply scanned_Some in Hh as (? & -> & _). apply scanned_Some in Hv as (? & -> & _).
  simpl. red. eauto.
Qed.

Example block_image_bounds :
  find_circle_bounds block_image default_threshold = Ok (3, 2, 6).
Proof. vm_compute. reflexivity. Qed.

(** C1: when the detector completes, [center_x] is the integer midpoint of
    the first and last bright x on the middle row (row [h // 2]),
    [center_y] the integer midpoint of the first and last bright y on the
    middle column (column [w // 2]), and the radius is the larger integer
    half-span plus the margin 5; "bright" is: the average of R, G, B
    strictly exceeds the threshold, whose default is 50. *)
Theorem find_circle_bounds_midpoints img t cx cy radius :
  find_circle_bounds img t = Ok (cx, cy, radius) →
  default_threshold = 50 ∧
  ∃ first_h last_h first_v last_v,
    first_in (brighter (row img (height img `div` 2)) t) (width img) first_h ∧
    last_in (brighter (row img (height img `div` 2)) t) (width img) last_h ∧
    first_in (brighter (column img (width img `div` 2)) t) (height img) first_v ∧
    last_in (brighter (column img (width img `div` 2)) t) (height img) last_v ∧
    cx = (first_h + last_h) `div` 2 ∧
    cy = (first_v + last_v) `div` 2 ∧
    radius = Z.max ((last_h - first_h) `div` 2) ((last_v - first_v) `div` 2) + 5.
Proof.
  intros H. split; [reflexivity|].
  apply find_circle_bounds_scans in H
    as (fh & lh & fv & lv & Hh & Hv & Hcx & Hcy & Hr).
  apply scan_Some_bounds in Hh as [Hfh Hlh].
  apply scan_Some_bounds in Hv as [Hfv Hlv].
  by exists fh, lh, fv, lv.
Qed.

Lemma find_circle_bounds_midpoints_witness :
  default_threshold = 50 ∧
  ∃ first_h last_h first_v last_v,
    first_in (brighter (row block_image (height block_image `div` 2)) 50)
      (width block_image) first_h ∧
    last_in (brighter (row block_image (height block_image `div` 2)) 50)
      (width block_image) last_h ∧
    first_in (brighter (column block_image (width block_image `div` 2)) 50)
      (height block_image) first_v ∧
    last_in (brighter (column block_image (width block_image `div` 2)) 50)
      (height block_image) last_v ∧
    3 = (first_h + last_h) `div` 2 ∧
    2 = (first_v + last_v) `div` 2 ∧
    6 = Z.max ((last_h - first_h) `div` 2) ((last_v - first_v) `div` 2) + 5.
Proof.
  apply (find_circle_bounds_midpoints block_image 50 3 2 6). vm_compute.
  reflexivity.
Defined.

(** C2: when the middle row, or the middle column, has no pixel whose
    average strictly exceeds the threshold, the detector returns no
    circle: it raises.  The exception is the [TypeError] of the arithmetic
    on the unset bound whenever the scans themselves went through. *)
Theorem dark_midline_raises img t :
  (∀ x, 0 ≤ x < width img → ¬ brighter (row img (height img `div` 2)) t x) ∨
  (∀ y, 0 ≤ y < height img → ¬ brighter (column img (width img `div` 2)) t y) →
  ∃ e, find_circle_bounds img t = Err e ∧
       (is_Ok (scan (row img (height img `div` 2)) t (width img)) →
        is_Ok (scan (column img (width img `div` 2)) t (height img)) →
        e = TypeError).
Proof.
  intros Hdark. rewrite find_circle_bounds_unfold.
  destruct (scan (row img _) t _) as [[fh lh]|e] eqn:Hh; simpl.
  2:{ exists e. split; [done|]. by intros [? [=]]. }
  destruct (scan (column img _) t _) as [[fv lv]|e] eqn:Hv; simpl.
  2:{ exists e. split; [done|]. by intros _ [? [=]]. }
  apply scan_Ok in Hh as [Hh _]. apply scan_Ok in Hv as [Hv _].
  exists TypeError. split; [|done].
  destruct fh as [fh|]; [|done].
  apply scanned_Some in Hh as (lh' & -> & Hfh & Hlh). simpl.
  destruct fv as [fv|]; [|done].
  apply scanned_Some in Hv as (lv' & -> & Hfv & Hlv).
  destruct Hfh as (? & ? & _), Hfv as (? & ? & _).
  destruct Hdark as [Hd|Hd]; [destruct (Hd fh) | destruct (Hd fv)]; done.
Qed.

Lemma dark_midline_raises_witness :
  ∃ e, find_circle_bounds dark_image 50 = Err e ∧
       (is_Ok (scan (row dark_image (height dark_image `div` 2)) 50
                 (width dark_image)) →
        is_Ok (scan (column dark_image (width dark_image `div` 2)) 50
                 (height dark_image)) →
        e = TypeError).
Proof.
  apply (dark_midline_raises dark_image 50). left.
  intros x Hx (p & Hp & r & g & b & rest & -> & Hlt).
  unfold row, getitem in Hp.
  destruct (in_bounds _ _ _); [|discriminate].
  injection Hp as <- <- <- <-. vm_compute in Hlt. discriminate.
Defined.

(** C10: when the detector returns, the radius is at least the margin 5
    and the centre lies inside the picture: [0 <= center_x < width] and
    [0 <= center_y < height]. *)
Theorem find_circle_bounds_in_range img t cx cy radius :
  find_circle_bounds img t = Ok (cx, cy, radius) →
  5 ≤ radius ∧ 0 ≤ cx < width img ∧ 0 ≤ cy < height img.
Proof.
  intros (fh & lh & fv & lv & Hh & Hv & -> & -> & ->)%find_circle_bounds_scans.
  apply scan_Some_bounds in Hh as [Hfh Hlh].
  apply scan_Some_bounds in Hv as [Hfv Hlv].
  destruct (span_in_range _ _ _ _ Hfh Hlh) as [Hx Hsh].
  destruct (span_in_range _ _ _ _ Hfv Hlv) as [Hy Hsv].
  repeat split; try apply Hx; try apply Hy. lia.
Qed.

Lemma find_circle_bounds_in_range_witness :
  5 ≤ 6 ∧ 0 ≤ 3 < width block_image ∧ 0 ≤ 2 < height block_image.
Proof.
  apply (find_circle_bounds_in_range block_image 50 3 2 6). vm_compute.
  reflexivity.
Defined.

(** ** A bright disk on a dark background *)

Lemma sq_le_bound x R : 0 ≤ R → x ^ 2 ≤ (2 * R) ^ 2 → - (2 * R) ≤ x ≤ 2 * R.
Proof. intros. nia. Qed.

(** A line through a disk, at squared (doubled) distance [D <= 1] from the
    centre line: the bright indices are symmetric about [C/2], and the
    chord is at most one pixel short of the diameter at either end. *)
Lemma chord_span (P : Z → Prop) n C R D a b :
  (∀ x, 0 ≤ x < n → P x ↔ (2 * x - C) ^ 2 + D ≤ (2 * R) ^ 2) →
  0 ≤ R → 0 ≤ D ≤ 1 →
  0 ≤ C - 2 * R → C + 2 * R ≤ 2 * (n - 1) →
  first_in P n a → last_in P n b →
  a + b = C ∧ 2 * R - 2 ≤ b - a ≤ 2 * R.
Proof.
  intros HP HR HD Hlo Hhi (Ha & HPa & Hmin) (Hb & HPb & Hmax).
  apply HP in HPa as Hqa; [|done]. apply HP in HPb as Hqb; [|done].
  assert (- (2 * R) ≤ 2 * a - C ≤ 2 * R) as Hra by (apply sq_le_bound; nia).
  assert (- (2 * R) ≤ 2 * b - C ≤ 2 * R) as Hrb by (apply sq_le_bound; nia).
  assert (C - a ≤ b) as H1.
  { destruct (decide (C - a ≤ b)) as [|Hn]; [done|].
    destruct (Hmax (C - a)); [lia|]. apply HP; [lia|].
    replace (2 * (C - a) - C) with (- (2 * a - C)) by lia. nia. }
  assert (a ≤ C - b) as H2.
  { destruct (decide (a ≤ C - b)) as [|Hn]; [done|].
    destruct (Hmin (C - b)); [lia|]. apply HP; [lia|].
    replace (2 * (C - b) - C) with (- (2 * b - C)) by lia. nia. }
  assert (a + b = C) as Hsum by lia. split; [done|]. split; [|lia].
  destruct (decide (a = 0)) as [->|Hne]; [lia|].
  destruct (decide (2 * R - 2 ≤ b - a)) as [|Hn]; [done|].
  destruct (Hmin (a - 1)); [lia|]. apply HP; [lia|]. nia.
Qed.

Section Disk.

Context (m : Mode) (w h A B R t : Z) (fg bg : Pixel).
Hypothesis fg_above : above t fg.
Hypothesis bg_below : at_or_below t bg.

Let img := disk_image m w h A B R fg bg.

Lemma disk_getitem x y :
  0 ≤ x < w → 0 ≤ y < h →
  getitem img x y = Ok (if in_disk A B R x y then fg else bg).
Proof.
  intros Hx Hy. unfold getitem, in_bounds, width, height. simpl.
  rewrite (bool_decide_eq_false_2 (x < 0)), (bool_decide_eq_false_2 (y < 0))
    by lia.
  by rewrite !bool_decide_eq_true_2 by lia.
Qed.

Lemma disk_readable x y : 0 ≤ x < w → 0 ≤ y < h → readable (row img y) x.
Proof.
  intros Hx Hy. unfold readable, row. rewrite disk_getitem by done.
  destruct fg_above as (r & g & b & rest & -> & _).
  destruct bg_below as (r' & g' & b' & rest' & -> & _).
  destruct (in_disk _ _ _ _ _); eauto.
Qed.

Lemma disk_brighter x y :
  0 ≤ x < w → 0 ≤ y < h →
  brighter (row img y) t x ↔ (2 * x - A) ^ 2 + (2 * y - B) ^ 2 ≤ (2 * R) ^ 2.
Proof.
  intros Hx Hy. unfold brighter, row. rewrite disk_getitem by done.
  unfold in_disk. case_bool_decide as Hd; split; try done.
  - intros _. eauto.
  - intros (p & [= <-] & r & g & b & rest & -> & Hlt).
    destruct bg_below as (r' & g' & b' & rest' & [= -> -> -> ->] & Hle).
    by apply Qlt_not_le in Hlt.
Qed.

End Disk.

(** C3: a picture made of a solid bright disk of radius [R] on a dark
    background, the disk centred (its centre [(A/2, B/2)] within half a
    pixel of the middle column and the middle row), lying inside the
    picture and meeting both midlines: the detector returns a centre
    within one pixel of the true centre and a radius within one of
    [R + 5]. *)
Theorem centred_disk_detected m w h A B R t fg bg :
  above t fg → at_or_below t bg →
  0 ≤ R →
  -1 ≤ A - 2 * (w `div` 2) ≤ 1 → -1 ≤ B - 2 * (h `div` 2) ≤ 1 →
  0 ≤ A - 2 * R → A + 2 * R ≤ 2 * (w - 1) →
  0 ≤ B - 2 * R → B + 2 * R ≤ 2 * (h - 1) →
  (∃ x, 0 ≤ x < w ∧ in_disk A B R x (h `div` 2) = true) →
  (∃ y, 0 ≤ y < h ∧ in_disk A B R (w `div` 2) y = true) →
  ∃ cx cy radius,
    find_circle_bounds (disk_image m w h A B R fg bg) t = Ok (cx, cy, radius) ∧
    -2 ≤ 2 * cx - A ≤ 2 ∧ -2 ≤ 2 * cy - B ≤ 2 ∧
    -1 ≤ radius - (R + 5) ≤ 1.
Proof.
  intros Hfg Hbg HR HA HB HAl HAr HBl HBr (x & Hx & Hdx) (y & Hy & Hdy).
  set (img := disk_image m w h A B R fg bg).
  assert (0 ≤ w `div` 2 < w ∧ 0 ≤ h `div` 2 < h) as [Hx0 Hy0] by div_lia.
  assert (Hbr : ∀ i j, 0 ≤ i < w → 0 ≤ j < h →
    brighter (row img j) t i ↔ (2 * i - A) ^ 2 + (2 * j - B) ^ 2 ≤ (2 * R) ^ 2).
  { intros. by apply disk_brighter. }
  destruct (find_circle_bounds_total img t) as [[[cx cy] radius] Hres].
  - intros i Hi. by apply (disk_readable m w h A B R t fg bg).
  - intros j Hj. by apply (disk_readable m w h A B R t fg bg Hfg Hbg (w `div` 2) j).
  - exists x. split; [done|]. apply Hbr; [done..|].
    unfold in_disk in Hdx. by apply bool_decide_eq_true_1 in Hdx.
  - exists y. split; [done|]. apply (Hbr (w `div` 2) y); [done..|].
    unfold in_disk in Hdy. by apply bool_decide_eq_true_1 in Hdy.
  - exists cx, cy, radius. split; [done|].
    apply find_circle_bounds_scans in Hres
      as (fh & lh & fv & lv & Hh & Hv & -> & -> & ->).
    apply scan_Some_bounds in Hh as [Hfh Hlh].
    apply scan_Some_bounds in Hv as [Hfv Hlv].
    change (width img) with w in *. change (height img) with h in *.
    assert (∀ d, -1 ≤ d ≤ 1 → 0 ≤ d ^ 2 ≤ 1) as Hsq by (intros; nia).
    assert (fh + lh = A ∧ 2 * R - 2 ≤ lh - fh ≤ 2 * R) as [Hsh Hdh].
    { apply (chord_span (brighter (row img (h `div` 2)) t) w A R
               ((2 * (h `div` 2) - B) ^ 2)); [|done|apply Hsq; lia|done..].
      intros i Hi. by apply Hbr. }
    assert (fv + lv = B ∧ 2 * R - 2 ≤ lv - fv ≤ 2 * R) as [Hsv Hdv].
    { apply (chord_span (brighter (column img (w `div` 2)) t) h B R
               ((2 * (w `div` 2) - A) ^ 2)); [|done|apply Hsq; lia|done..].
      intros j Hj. rewrite Z.add_comm. by apply (Hbr (w `div` 2) j). }
    rewrite Hsh, Hsv. div_lia.
Qed.

Lemma centred_disk_detected_witness :
  ∃ cx cy radius,
    find_circle_bounds
      (disk_image M_RGB 21 21 20 20 5 (PTuple [255; 255; 255]) (PTuple [0; 0; 0]))
      50 = Ok (cx, cy, radius) ∧
    -2 ≤ 2 * cx - 20 ≤ 2 ∧ -2 ≤ 2 * cy - 20 ≤ 2 ∧
    -1 ≤ radius - (5 + 5) ≤ 1.
Proof.
  apply (centred_disk_detected M_RGB 21 21 20 20 5 50
           (PTuple [255; 255; 255]) (PTuple [0; 0; 0])).
  - exists 255, 255, 255, []. split; reflexivity.
  - exists 0, 0, 0, []. split; [reflexivity|]. vm_compute. discriminate.
  - lia.
  - vm_compute. split; discriminate.
  - vm_compute. split; discriminate.
  - lia.
  - lia.
  - lia.
  - lia.
  - exists 10. split; [lia | reflexivity].
  - exists 10. split; [lia | reflexivity].
Defined.

(** ** Paths *)

Section Paths.

Local Open Scope string_scope.

Lemma app_cons c (s t : string) : String c s +:+ t = String c (s +:+ t).
Proof. reflexivity. Qed.

Lemma app_nil_l (t : string) : "" +:+ t = t.
Proof. reflexivity. Qed.

Lemma app_assoc_sep (s t : string) :
  s +:+ String sep t = (s +:+ String sep "") +:+ t.
Proof. induction s as [|c s IH]; [done|]. by rewrite !app_cons, IH. Qed.

Lemma length_app (s t : string) :
  String.length (s +:+ t) = (String.length s + String.length t)%nat.
Proof. induction s as [|c s IH]; [done|]. rewrite app_cons. simpl. by rewrite IH. Qed.

Lemma substring_all (s : string) : substring 0 (String.length s) s = s.
Proof. induction s as [|c s IH]; [done|]. simpl. by rewrite IH. Qed.

Lemma substring_prefix (s t : string) :
  substring 0 (String.length s) (s +:+ t) = s.
Proof.
  induction s as [|c s IH]; [by destruct t|]. rewrite app_cons. simpl.
  by rewrite IH.
Qed.

Lemma substring_suffix (s t : string) :
  substring (String.length s) (String.length t) (s +:+ t) = t.
Proof.
  induction s as [|c s IH]; [apply substring_all|]. by rewrite app_cons.
Qed.

Lemma sep_free_app (s t : string) :
  sep_free s = true → sep_free t = true → sep_free (s +:+ t) = true.
Proof.
  induction s as [|c s IH]; [done|]. rewrite app_cons. simpl.
  intros [-> Hs]%andb_true_iff Ht. simpl. by apply IH.
Qed.

Lemma sep_free_rfind_end (b : string) : sep_free b = true → rfind_end b = 0%nat.
Proof.
  induction b as [|c b IH]; [done|]. simpl.
  intros [Hc Hb]%andb_true_iff. rewrite IH by done.
  by apply negb_true_iff in Hc as ->.
Qed.

Lemma sep_free_startswith (b : string) :
  sep_free b = true → startswith_sep b = false.
Proof.
  destruct b as [|c b]; [done|]. simpl.
  by intros [Hc%negb_true_iff _]%andb_true_iff.
Qed.

Lemma rfind_end_app_free (s b : string) :
  sep_free b = true → rfind_end (s +:+ b) = rfind_end s.
Proof.
  intros Hb. induction s as [|c s IH]; [by apply sep_free_rfind_end|].
  rewrite app_cons. simpl. by rewrite IH.
Qed.

Lemma endswith_rfind_end (s : string) :
  endswith_sep s = true → rfind_end s = String.length s.
Proof.
  induction s as [|c s IH]; [done|]. destruct s as [|c' s'].
  - simpl. by intros ->.
  - intros H. change (endswith_sep (String c' s') = true) in H.
    apply IH in H. change (rfind_end (String c (String c' s')))
      with (match rfind_end (String c' s') with
            | O => if is_sep c then 1%nat else 0%nat
            | S k => S (S k)
            end).
    rewrite H. done.
Qed.

Lemma endswith_app_sep (s : string) : endswith_sep (s +:+ String sep "") = true.
Proof.
  induction s as [|c s IH]; [done|]. rewrite app_cons.
  destruct s as [|c' s']; [done|]. rewrite app_cons in *. done.
Qed.

Lemma rstrip_sep_id (s : string) : endswith_sep s = false → rstrip_sep s = s.
Proof.
  induction s as [|c s IH]; [done|]. destruct s as [|c' s'].
  - simpl. by intros ->.
  - intros H. change (endswith_sep (String c' s') = false) in H.
    apply IH in H. change (rstrip_sep (String c (String c' s')))
      with (match rstrip_sep (String c' s') with
            | "" => if is_sep c then "" else String c ""
            | r => String c r
            end).
    by rewrite H.
Qed.

Lemma rstrip_sep_app_sep (s : string) :
  rstrip_sep (s +:+ String sep "") = rstrip_sep s.
Proof.
  induction s as [|c s IH]; [done|]. rewrite app_cons. simpl. by rewrite IH.
Qed.

Lemma endswith_rstrip_sep (s : string) : endswith_sep (rstrip_sep s) = false.
Proof.
  induction s as [|c s IH]; [done|]. simpl.
  destruct (rstrip_sep s) as [|c' r]; [by destruct (is_sep c) eqn:?|done].
Qed.

Lemma all_sep_endswith (s : string) :
  all_sep s = true → s ≠ "" → endswith_sep s = true.
Proof.
  induction s as [|c s IH]; [done|]. simpl.
  intros [Hc Hs]%andb_true_iff _. destruct s as [|c' s']; [done|].
  by apply IH.
Qed.

(** A directory name is empty, or made of separators only, or does not
    end with a separator. *)
Lemma dirname_shape (p : string) :
  dirname p = "" ∨
  (dirname p ≠ "" ∧ all_sep (dirname p) = true) ∨
  (dirname p ≠ "" ∧ endswith_sep (dirname p) = false).
Proof.
  unfold dirname. set (head := substring 0 (rfind_end p) p).
  case_bool_decide as Hh; simpl; [by left|].
  destruct (all_sep head) eqn:Ha; simpl; [by right; left|].
  destruct (decide (rstrip_sep head = "")) as [->|Hr]; [by left|].
  right; right. split; [done | apply endswith_rstrip_sep].
Qed.

Lemma dirname_app_free (d b : string) :
  endswith_sep d = true → all_sep d = true → sep_free b = true →
  dirname (d +:+ b) = d ∧ basename (d +:+ b) = b.
Proof.
  intros He Ha Hb. unfold dirname, basename.
  rewrite rfind_end_app_free, endswith_rfind_end by done.
  rewrite substring_prefix, Ha, andb_false_r. split; [done|].
  rewrite length_app, Nat.add_comm, Nat.add_sub. apply substring_suffix.
Qed.

Lemma dirname_app_sep_free (d b : string) :
  d ≠ "" → endswith_sep d = false → sep_free b = true →
  dirname (d +:+ String sep b) = d ∧ basename (d +:+ String sep b) = b.
Proof.
  intros Hd He Hb. unfold dirname, basename. rewrite app_assoc_sep.
  rewrite rfind_end_app_free, endswith_rfind_end
    by auto using endswith_app_sep.
  rewrite substring_prefix.
  assert (all_sep (d +:+ String sep "") = false) as ->.
  { destruct (all_sep (d +:+ String sep "")) eqn:Ha; [|done].
    assert (all_sep d = true) as Had.
    { clear -Ha. induction d as [|c d IH]; [done|]. rewrite app_cons in Ha.
      simpl in *. apply andb_true_iff in Ha as [-> Ha]. by apply IH. }
    by rewrite all_sep_endswith in He. }
  rewrite bool_decide_eq_false_2 by (by destruct d).
  simpl. split.
  - rewrite rstrip_sep_app_sep. by apply rstrip_sep_id.
  - rewrite (length_app _ b), Nat.add_comm, Nat.add_sub.
    apply substring_suffix.
Qed.

(** Joining a base name to a directory name gives a path in that
    directory, with that base name. *)
Lemma dirname_join (p b : string) :
  sep_free b = true →
  dirname (join (dirname p) b) = dirname p ∧
  basename (join (dirname p) b) = b.
Proof.
  intros Hb. unfold join. rewrite sep_free_startswith by done.
  destruct (dirname_shape p) as [-> | [[Hd Ha] | [Hd He]]].
  - simpl. rewrite app_nil_l. unfold dirname, basename.
    rewrite sep_free_rfind_end by done. simpl.
    split; [by destruct b|]. rewrite Nat.sub_0_r. apply substring_all.
  - rewrite bool_decide_eq_false_2 by done.
    rewrite all_sep_endswith by done. simpl. by apply dirname_app_free;
      [apply all_sep_endswith|..].
  - rewrite bool_decide_eq_false_2, He by done. simpl.
    by apply dirname_app_sep_free.
Qed.

Lemma join_inj (a b1 b2 : string) :
  startswith_sep b1 = startswith_sep b2 → join a b1 = join a b2 → b1 = b2.
Proof.
  unfold join. intros <-. destruct (startswith_sep b1); [done|].
  destruct (_ || _).
  - by intros ?%(inj (String.app a)).
  - by intros [= ?]%(inj (String.app a)).
Qed.

(** The two output paths differ. *)
Lemma path_1x_2x_ne (src name : string) : path_1x src name ≠ path_2x src name.
Proof.
  unfold path_1x, path_2x. intros H%join_inj.
  - by apply (inj (String.app name)) in H.
  - by destruct name.
Qed.

End Paths.

(** ** The pipeline *)

Section PipelineProperties.

Context (convert_data : Image → Mode → Z → Z → Pixel)
        (ellipse_fill : Box → Z → Z → bool)
        (lanczos : Image → Z * Z → Z → Z → Pixel)
        (png_size : Image → Z)
        (write_to : gmap string File → string → Image → Write).

Local Abbreviation process_badge :=
  (process_badge convert_data ellipse_fill lanczos png_size write_to).
Local Abbreviation main :=
  (main convert_data ellipse_fill lanczos png_size write_to).
Local Abbreviation masked_canvas := (masked_canvas convert_data ellipse_fill).
Local Abbreviation Image_resize := (Image_resize lanczos).
Local Abbreviation written_1x := (written_1x lanczos png_size).
Local Abbreviation written := (written lanczos png_size).
Local Abbreviation printed := (printed lanczos png_size).
Local Abbreviation write_1x := (write_1x lanczos write_to).
Local Abbreviation write_2x := (write_2x lanczos png_size write_to).

(** A run that goes through, step by step. *)
Lemma process_badge_run src name w f img cropped circle tight canvas :
  fs w !! src = Some f →
  content f = Some img →
  square_crop img = Ok cropped →
  find_circle_bounds cropped default_threshold = Ok circle →
  tight_crop (height img) cropped circle = Ok tight →
  masked_canvas tight = Ok canvas →
  write_1x src name canvas (fs w) = Accepted →
  write_2x src name canvas (fs w) = Accepted →
  process_badge src name w =
    Return tt (mkWorld (written src name canvas (fs w))
                       (stdout w ++ printed src name img circle canvas)).
Proof.
  intros Hf Hc Hsq Hfc Ht Hm Hw1 Hw2. revert Ht.
  unfold process_badge, mbind, Proc_bind, Image_open. rewrite Hf, Hc.
  cbn [header_size load].
  unfold printed, width, height. destruct (size img) as [w0 h0].
  cbn [snd]. intros Ht.
  unfold print, lift. rewrite Hsq, Hfc. destruct circle as [[cx cy] radius].
  rewrite Ht, Hm.
  unfold Image_save, report_size, getsize, mbind, Proc_bind, print.
  cbn [fs stdout]. unfold write_1x in Hw1. rewrite Hw1. cbn [fs stdout].
  unfold write_2x, written_1x, file_of in Hw2. rewrite Hw2. cbn [fs stdout].
  rewrite lookup_insert_ne
    by (intros E; exact (path_1x_2x_ne src name (eq_sym E))).
  rewrite lookup_insert_eq. cbn [fs stdout nbytes mkFile].
  rewrite lookup_insert_eq. cbn [fs stdout nbytes mkFile fst snd].
  unfold written, file_of. by rewrite <- !app_assoc.
Qed.

(** Every way a run can go: the source is missing or refused by
    [Image.open], its pixel data does not load, one of the four image
    steps raises, one of the two writes fails, or the run completes. *)
Lemma process_badge_cases src name w :
  process_badge src name w =
    match fs w !! src with
    | None => Raise OSError w
    | Some f =>
      match content f with
      | None =>
          match failure f with
          | OpenRaises e => Raise (lib_exn e) w
          | LoadRaises sz e =>
              Raise (lib_exn e)
                (mkWorld (fs w) (stdout w ++ [MsgSource sz.1 sz.2]))
          end
      | Some img =>
        let w1 := mkWorld (fs w)
                    (stdout w ++ [MsgSource (width img) (height img)]) in
        match square_crop img with
        | Err e => Raise e w1
        | Ok cropped =>
          match find_circle_bounds cropped default_threshold with
          | Err e => Raise e w1
          | Ok circle =>
            let w2 := mkWorld (fs w)
                        (stdout w1 ++
                           [MsgCircle circle.1.1 circle.1.2 circle.2]) in
            match tight_crop (height img) cropped circle with
            | Err e => Raise e w2
            | Ok tight =>
              match masked_canvas tight with
              | Err e => Raise e w2
              | Ok canvas =>
                  match write_1x src name canvas (fs w) with
                  | Failed residue =>
                      Raise OSError
                        (mkWorld (left_at (path_1x src name) residue (fs w))
                           (stdout w2))
                  | Accepted =>
                      match write_2x src name canvas (fs w) with
                      | Failed residue =>
                          Raise OSError
                            (mkWorld
                               (left_at (path_2x src name) residue
                                  (written_1x src name canvas (fs w)))
                               (stdout w2))
                      | Accepted =>
                          Return tt
                            (mkWorld (written src name canvas (fs w))
                               (stdout w ++
                                  printed src name img circle canvas))
                      end
                  end
              end
            end
          end
        end
      end
    end.
Proof.
  destruct (fs w !! src) as [f|] eqn:Hf.
  2:{ unfold process_badge, mbind, Proc_bind, Image_open. by rewrite Hf. }
  destruct (content f) as [img|] eqn:Hc.
  2:{ unfold process_badge, mbind, Proc_bind, Image_open. rewrite Hf, Hc.
      destruct (failure f) as [e|[w0 h0] e]; [done|]. by destruct e. }
  cbv zeta.
  destruct (square_crop img) as [cropped|e] eqn:Hsq.
  2:{ unfold process_badge, mbind, Proc_bind, Image_open, width, height.
      rewrite Hf, Hc. cbn [header_size load]. destruct (size img).
      unfold print, lift. by rewrite Hsq. }
  destruct (find_circle_bounds cropped default_threshold)
    as [circle|e] eqn:Hfc.
  2:{ unfold process_badge, mbind, Proc_bind, Image_open, width, height.
      rewrite Hf, Hc. cbn [header_size load]. destruct (size img).
      unfold print, lift. by rewrite Hsq, Hfc. }
  destruct (tight_crop (height img) cropped circle) as [tight|e] eqn:Ht.
  2:{ revert Ht.
      unfold process_badge, mbind, Proc_bind, Image_open, width, height.
      rewrite Hf, Hc. cbn [header_size load]. destruct (size img).
      cbn [snd]. intros Ht. unfold print, lift.
      rewrite Hsq, Hfc. destruct circle as [[cx cy] radius]. by rewrite Ht. }
  destruct (masked_canvas tight) as [canvas|e] eqn:Hm.
  2:{ revert Ht.
      unfold process_badge, mbind, Proc_bind, Image_open, width, height.
      rewrite Hf, Hc. cbn [header_size load]. destruct (size img).
      cbn [snd]. intros Ht. unfold print, lift.
      rewrite Hsq, Hfc. destruct circle as [[cx cy] radius].
      by rewrite Ht, Hm. }
  destruct (write_1x src name canvas (fs w)) as [|left1] eqn:Hw1.
  2:{ revert Ht.
      unfold process_badge, mbind, Proc_bind, Image_open, width, height.
      rewrite Hf, Hc. cbn [header_size load]. destruct (size img).
      cbn [snd]. intros Ht. unfold print, lift.
      rewrite Hsq, Hfc. destruct circle as [[cx cy] radius].
      rewrite Ht, Hm. unfold Image_save. cbn [fs stdout].
      unfold write_1x in Hw1. by rewrite Hw1. }
  destruct (write_2x src name canvas (fs w)) as [|left2] eqn:Hw2.
  2:{ revert Ht.
      unfold process_badge, mbind, Proc_bind, Image_open, width, height.
      rewrite Hf, Hc. cbn [header_size load]. destruct (size img).
      cbn [snd]. intros Ht. unfold print, lift.
      rewrite Hsq, Hfc. destruct circle as [[cx cy] radius].
      rewrite Ht, Hm. unfold Image_save. cbn [fs stdout].
      unfold write_1x in Hw1. rewrite Hw1.
      cbn [fs stdout]. unfold write_2x, written_1x, file_of in Hw2 |- *.
      by rewrite Hw2. }
  by apply (process_badge_run src name w f img cropped circle tight canvas).
Qed.

(** A run that completes went through every step. *)
Lemma process_badge_completes src name w :
  completes (process_badge src name w) →
  ∃ f img cropped circle tight canvas,
    fs w !! src = Some f ∧
    content f = Some img ∧
    square_crop img = Ok cropped ∧
    find_circle_bounds cropped default_threshold = Ok circle ∧
    tight_crop (height img) cropped circle = Ok tight ∧
    masked_canvas tight = Ok canvas ∧
    write_1x src name canvas (fs w) = Accepted ∧
    write_2x src name canvas (fs w) = Accepted.
Proof.
  rewrite process_badge_cases.
  destruct (fs w !! src) as [f|] eqn:Hf; [|done].
  destruct (content f) as [img|] eqn:Hc; [|by destruct (failure f)].
  cbv zeta.
  destruct (square_crop img) as [cropped|] eqn:Hsq; [|done].
  destruct (find_circle_bounds cropped default_threshold)
    as [circle|] eqn:Hfc; [|done].
  destruct (tight_crop (height img) cropped circle) as [tight|] eqn:Ht;
    [|done].
  destruct (masked_canvas tight) as [canvas|] eqn:Hm; [|done].
  destruct (write_1x src name canvas (fs w)) eqn:Hw1; [|done].
  destruct (write_2x src name canvas (fs w)) eqn:Hw2; [|done].
  intros _. by exists f, img, cropped, circle, tight, canvas.
Qed.

(** The files after a completed run. *)
Lemma written_lookup src name canvas (files : gmap string File) p :
  written src name canvas files !! p =
    if decide (p = path_2x src name)
    then Some (file_of png_size (Image_resize canvas (512, 512)))
    else if decide (p = path_1x src name)
         then Some (file_of png_size (Image_resize canvas (256, 256)))
         else files !! p.
Proof.
  unfold written. destruct (decide (p = path_2x src name)) as [->|H2].
  { by rewrite lookup_insert_eq. }
  rewrite lookup_insert_ne by done.
  destruct (decide (p = path_1x src name)) as [->|H1].
  { by rewrite lookup_insert_eq. }
  by rewrite lookup_insert_ne.
Qed.

Lemma written_idemp src name canvas (files : gmap string File) :
  written src name canvas (written src name canvas files) =
  written src name canvas files.
Proof.
  apply map_eq. intros p. rewrite !written_lookup.
  by repeat destruct (decide _).
Qed.

(** The shape of the intermediate images. *)
Lemma Image_crop_Ok img l t r b out :
  Image_crop img (l, t, r, b) = Ok out →
  l ≤ r ∧ t ≤ b ∧ mode out = mode img ∧ size out = (r - l, b - t) ∧
  ∀ x y, data out x y = if in_bounds img (x + l) (y + t)
                        then data img (x + l) (y + t)
                        else zero_pixel (mode img).
Proof.
  unfold Image_crop. repeat case_bool_decide; try done.
  intros [= <-]. simpl. repeat split; try done; lia.
Qed.

Lemma square_crop_Ok img cropped :
  square_crop img = Ok cropped →
  0 ≤ height img ∧
  size cropped = (height img, height img) ∧
  ∀ x y, data cropped x y =
           if in_bounds img (x + (width img - height img) `div` 2) y
           then data img (x + (width img - height img) `div` 2) y
           else zero_pixel (mode img).
Proof.
  unfold square_crop, width, height. destruct (size img) as [w0 h0]. simpl.
  intros (? & ? & _ & -> & Hd)%Image_crop_Ok.
  split; [lia|]. split; [f_equal; lia|].
  intros x y. rewrite Hd. by rewrite Z.add_0_r.
Qed.

Lemma square_crop_total img :
  0 ≤ height img → ∃ cropped, square_crop img = Ok cropped.
Proof.
  unfold square_crop, height, Image_crop. destruct (size img) as [w0 h0].
  simpl. intros ?. rewrite !bool_decide_eq_false_2 by lia. eauto.
Qed.

Lemma alpha_set_alpha p a : alpha (set_alpha p a) = Some a.
Proof. reflexivity. Qed.

(** The masked canvas is a square of side [max tw th], at least 16 wide
    (the ellipse box would be inverted otherwise), and its alpha band is
    the mask: 255 on the pixels the ellipse call fills, 0 elsewhere. *)
Lemma masked_canvas_Ok tight canvas :
  masked_canvas tight = Ok canvas →
  let d := Z.max (width tight) (height tight) in
  mode canvas = M_RGBA ∧ size canvas = (d, d) ∧ 16 ≤ d ∧
  ∀ x y, 0 ≤ x < d → 0 ≤ y < d →
         alpha (data canvas x y) =
           Some (if ellipse_fill (8, 8, d - 8, d - 8) x y then 255 else 0).
Proof using convert_data ellipse_fill.
  unfold masked_canvas, width, height.
  destruct (size tight) as [tw th]. cbn [fst snd].
  set (d := Z.max tw th). intros H.
  apply bind_Ok in H as (square_img & Hsq & H).
  apply bind_Ok in H as (mask0 & Hm0 & H).
  apply bind_Ok in H as (mask & Hm & [= <-]).
  unfold Image_new in Hsq, Hm0. cbn [fst snd] in Hsq, Hm0.
  case_bool_decide; [done|]. injection Hsq as <-. injection Hm0 as <-.
  unfold ImageDraw_ellipse in Hm. repeat case_bool_decide; try done.
  injection Hm as <-. repeat split; [lia|].
  intros x y Hx Hy. cbn [data Image_putalpha]. rewrite alpha_set_alpha.
  assert (∀ m c, in_bounds (mkImage m (d, d) c) x y = true) as ->.
  { intros. unfold in_bounds, width, height. cbn [size fst snd].
    by rewrite !bool_decide_eq_true_2. }
  cbn [andb]. by destruct (ellipse_fill _ x y).
Qed.

(** C4: when the pipeline completes, the file at [<dir>/<name>.png] holds
    a 256x256 image and the file at [<dir>/<name>@2x.png] a 512x512 one,
    whatever the size of the source; [<dir>] is the directory of the
    source path, and for a base name (no separator in it) the two paths
    are in that directory under exactly these names. *)
Theorem outputs_have_fixed_sizes src name w :
  completes (process_badge src name w) →
  let w' := final_world (process_badge src name w) in
  ∃ img1 img2,
    fs w' !! join (dirname src) (name +:+ ".png") =
      Some (mkFile (Some img1) (png_size img1)) ∧
    size img1 = (256, 256) ∧
    fs w' !! join (dirname src) (name +:+ "@2x.png") =
      Some (mkFile (Some img2) (png_size img2)) ∧
    size img2 = (512, 512) ∧
    (sep_free name = true →
     dirname (join (dirname src) (name +:+ ".png")) = dirname src ∧
     basename (join (dirname src) (name +:+ ".png")) = name +:+ ".png" ∧
     dirname (join (dirname src) (name +:+ "@2x.png")) = dirname src ∧
     basename (join (dirname src) (name +:+ "@2x.png")) = name +:+ "@2x.png").
Proof.
  intros Hc. destruct (process_badge_completes _ _ _ Hc)
    as (f & img & cropped & circle & tight & canvas
        & Hf & Hi & Hsq & Hfc & Ht & Hm & Hw1 & Hw2).
  rewrite (process_badge_run _ _ _ _ _ _ _ _ _ Hf Hi Hsq Hfc Ht Hm Hw1 Hw2).
  cbn [final_world fs]. unfold written.
  exists (Image_resize canvas (256, 256)), (Image_resize canvas (512, 512)).
  fold (path_1x src name). fold (path_2x src name).
  rewrite lookup_insert_ne
    by (intros E; exact (path_1x_2x_ne src name (eq_sym E))).
  rewrite !lookup_insert_eq. do 4 (split; [done|]).
  intros Hn. unfold path_1x, path_2x.
  destruct (dirname_join src (name +:+ ".png")) as [-> ->];
    [by apply sep_free_app|].
  by destruct (dirname_join src (name +:+ "@2x.png")) as [-> ->];
    [apply sep_free_app|].
Qed.


(** C7: with an argument count other than 2 the process prints the usage
    text, exits with status 1 and touches no file. *)
Theorem wrong_argument_count_exits_1 prog (args : list string) w :
  length args ≠ 2%nat →
  let o := main (prog :: args) w in
  exit_status o = 1 ∧
  stdout (final_world o) = stdout w ++ [MsgUsage] ∧
  fs (final_world o) = fs w.
Proof.
  intros Hn. unfold main.
  rewrite bool_decide_eq_true_2 by (simpl; lia). done.
Qed.

(** C8: the first compositing step crops the decoded source to a square
    whose side is the source height, taken from the column
    [(width - height) // 2] and the row 0 (zeros where that leaves the
    source), and the detector runs on this crop: the circle the run prints
    is the one found in the crop, and when the detector raises there the
    run ends with that exception. *)
Theorem square_crop_then_detect src name w f img :
  fs w !! src = Some f →
  content f = Some img →
  0 ≤ height img →
  ∃ cropped,
    square_crop img = Ok cropped ∧
    size cropped = (height img, height img) ∧
    (∀ x y, data cropped x y =
              if in_bounds img (x + (width img - height img) `div` 2) y
              then data img (x + (width img - height img) `div` 2) y
              else zero_pixel (mode img)) ∧
    match find_circle_bounds cropped default_threshold with
    | Ok (cx, cy, radius) =>
        ∃ rest,
          stdout (final_world (process_badge src name w)) =
            stdout w ++ MsgSource (width img) (height img)
                     :: MsgCircle cx cy radius :: rest
    | Err e =>
        process_badge src name w =
          Raise e (mkWorld (fs w)
                     (stdout w ++ [MsgSource (width img) (height img)]))
    end.
Proof.
  intros Hf Hc Hh. destruct (square_crop_total img Hh) as [cropped Hsq].
  exists cropped. destruct (square_crop_Ok _ _ Hsq) as (_ & Hsz & Hd).
  do 3 (split; [done|]).
  rewrite process_badge_cases, Hf, Hc. cbv zeta. rewrite Hsq.
  destruct (find_circle_bounds cropped default_threshold)
    as [[[cx cy] radius]|e]; [|done].
  destruct (tight_crop (height img) cropped (cx, cy, radius)) as [tight|e].
  - destruct (masked_canvas tight) as [canvas|e]; cbn [final_world stdout].
    + destruct (write_1x src name canvas (fs w));
        [destruct (write_2x src name canvas (fs w))|];
        cbn [final_world stdout].
      * by eexists.
      * exists []. by rewrite <- app_assoc.
      * exists []. by rewrite <- app_assoc.
    + exists []. by rewrite <- app_assoc.
  - exists []. cbn [final_world stdout]. by rewrite <- app_assoc.
Qed.

(** C9: the outcome of a run depends on the world only through the source
    file and on whether the two writes go through.  Take two worlds with
    the same source file and the same output name, the run completing
    from the first.  From the second the run goes through the same steps
    up to the writes: it completes, or a write fails and it ends with
    [OSError].  When it completes too, both runs leave the same two files
    (hence the same dimensions, mask and pixel values) and print the same
    lines, whatever was stored under the output paths before, and no other
    file is touched.  In particular a second run after the first, the
    source being untouched, rewrites the two files to what they are. *)
Theorem process_badge_deterministic src name w1 w2 :
  fs w1 !! src = fs w2 !! src →
  completes (process_badge src name w1) →
  let o1 := final_world (process_badge src name w1) in
  let o2 := final_world (process_badge src name w2) in
  (completes (process_badge src name w2) ∨
   ∃ w', process_badge src name w2 = Raise OSError w') ∧
  (completes (process_badge src name w2) →
   (∃ f1 f2,
      fs o1 !! path_1x src name = Some f1 ∧ fs o2 !! path_1x src name = Some f1 ∧
      fs o1 !! path_2x src name = Some f2 ∧ fs o2 !! path_2x src name = Some f2) ∧
   (∃ lines, stdout o1 = stdout w1 ++ lines ∧ stdout o2 = stdout w2 ++ lines) ∧
   (∀ p, p ≠ path_1x src name → p ≠ path_2x src name →
         fs o2 !! p = fs w2 !! p)) ∧
  (fs o1 !! src = fs w1 !! src →
   completes (process_badge src name o1) →
   fs (final_world (process_badge src name o1)) = fs o1).
Proof.
  intros Hsrc Hc. destruct (process_badge_completes _ _ _ Hc)
    as (f & img & cropped & circle & tight & canvas
        & Hf & Hi & Hsq & Hfc & Ht & Hm & Hw1 & Hw2).
  assert (fs w2 !! src = Some f) as Hf2 by congruence.
  rewrite (process_badge_run src name w1 f img cropped circle tight canvas)
    by done.
  cbn [final_world fs stdout]. split; [|split].
  - rewrite (process_badge_cases src name w2), Hf2, Hi. cbv zeta.
    rewrite Hsq, Hfc, Ht, Hm.
    destruct (write_1x src name canvas (fs w2)); [|by right; eexists].
    destruct (write_2x src name canvas (fs w2)); [by left | by right; eexists].
  - intros Hc2. destruct (process_badge_completes _ _ _ Hc2)
      as (f' & img' & cropped' & circle' & tight' & canvas'
          & Hf' & Hi' & Hsq' & Hfc' & Ht' & Hm' & Hw1' & Hw2').
    assert (f' = f) as -> by congruence.
    assert (img' = img) as -> by congruence.
    assert (cropped' = cropped) as -> by congruence.
    assert (circle' = circle) as -> by congruence.
    assert (tight' = tight) as -> by congruence.
    assert (canvas' = canvas) as -> by congruence.
    rewrite (process_badge_run src name w2 f img cropped circle tight canvas)
      by done.
    cbn [final_world fs stdout]. split; [|split].
    + eexists _, _. rewrite !written_lookup.
      rewrite !(decide_False (P := path_1x src name = path_2x src name))
        by apply path_1x_2x_ne.
      rewrite !(decide_True (P := path_1x src name = path_1x src name)) by done.
      by rewrite !(decide_True (P := path_2x src name = path_2x src name)).
    + by eexists.
    + intros p H1 H2. rewrite written_lookup. by rewrite !decide_False.
  - intros Hsame Hc1. rewrite Hf in Hsame.
    destruct (process_badge_completes _ _ _ Hc1)
      as (f' & img' & cropped' & circle' & tight' & canvas'
          & Hf' & Hi' & Hsq' & Hfc' & Ht' & Hm' & Hw1' & Hw2').
    cbn [fs] in Hf'.
    assert (f' = f) as -> by congruence.
    assert (img' = img) as -> by congruence.
    assert (cropped' = cropped) as -> by congruence.
    assert (circle' = circle) as -> by congruence.
    assert (tight' = tight) as -> by congruence.
    assert (canvas' = canvas) as -> by congruence.
    rewrite (process_badge_run src name _ f img cropped circle tight canvas)
      by done.
    cbn [final_world fs]. by rewrite written_idemp.
Qed.

(** The tight crop never raises on what the detector returns for a square
    picture: the centre is inside and the radius positive, so the clamped
    box is not inverted. *)
Lemma tight_crop_total cropped circle :
  width cropped = height cropped →
  find_circle_bounds cropped default_threshold = Ok circle →
  ∃ tight, tight_crop (height cropped) cropped circle = Ok tight ∧
           1 ≤ width tight ∧ 1 ≤ height tight.
Proof.
  destruct circle as [[cx cy] radius]. intros Hsq Hfc.
  apply find_circle_bounds_scans in Hfc
    as (fh & lh & fv & lv & Hh & Hv & -> & -> & ->).
  apply scan_Some_bounds in Hh as [Hfh Hlh].
  apply scan_Some_bounds in Hv as [Hfv Hlv].
  destruct (span_in_range _ _ _ _ Hfh Hlh) as [Hx Hsh].
  destruct (span_in_range _ _ _ _ Hfv Hlv) as [Hy Hsv].
  set (cx := (fh + lh) `div` 2) in *. set (cy := (fv + lv) `div` 2) in *.
  set (radius := Z.max _ _ + 5).
  assert (5 ≤ radius) as Hr by (unfold radius; lia).
  clearbody cx cy radius.
  unfold tight_crop, Image_crop. rewrite !bool_decide_eq_false_2 by lia.
  eexists. split; [done|]. unfold width, height in *. cbn [size fst snd]. lia.
Qed.

(** X12: the margin of the masked canvas.  When the ellipse call fills
    nothing outside the bounding box it is given, every canvas pixel outside
    the box [8 .. d - 8] in either direction is fully transparent, whatever
    alpha the source had there; in particular the four corners are. *)
Lemma masked_canvas_margin_transparent tight canvas :
  masked_canvas tight = Ok canvas →
  let d := width canvas in
  (∀ x y, ellipse_fill (8, 8, d - 8, d - 8) x y = true →
          8 ≤ x ≤ d - 8 ∧ 8 ≤ y ≤ d - 8) →
  height canvas = d ∧
  (∀ x y, 0 ≤ x < d → 0 ≤ y < d →
          x < 8 ∨ d - 8 < x ∨ y < 8 ∨ d - 8 < y →
          alpha (data canvas x y) = Some 0) ∧
  alpha (data canvas 0 0) = Some 0 ∧
  alpha (data canvas (d - 1) 0) = Some 0 ∧
  alpha (data canvas 0 (d - 1)) = Some 0 ∧
  alpha (data canvas (d - 1) (d - 1)) = Some 0.
Proof using convert_data ellipse_fill.
  clear lanczos png_size write_to.
  intros (_ & Hsz & Hd & Ha)%masked_canvas_Ok.
  unfold width, height. rewrite Hsz. cbn [fst snd].
  set (d := Z.max _ _) in *. intros Hbox.
  assert (∀ x y, 0 ≤ x < d → 0 ≤ y < d →
                 x < 8 ∨ d - 8 < x ∨ y < 8 ∨ d - 8 < y →
                 alpha (data canvas x y) = Some 0) as Hout.
  { intros x y Hx Hy Hn. rewrite Ha by done.
    destruct (ellipse_fill _ x y) eqn:He; [|done].
    apply Hbox in He. lia. }
  split; [done|]. split; [done|].
  repeat split; apply Hout; lia.
Qed.



End PipelineProperties.

(** ** The pipeline on the demo world *)

Lemma outputs_have_fixed_sizes_witness :
  let w' := final_world
              (demo_process_badge "badges/source.png" "penguin" demo_world) in
  ∃ img1 img2,
    fs w' !! join (dirname "badges/source.png") ("penguin" +:+ ".png") =
      Some (mkFile (Some img1) (demo_png_size img1)) ∧
    size img1 = (256, 256) ∧
    fs w' !! join (dirname "badges/source.png") ("penguin" +:+ "@2x.png") =
      Some (mkFile (Some img2) (demo_png_size img2)) ∧
    size img2 = (512, 512) ∧
    (sep_free "penguin" = true →
     dirname (join (dirname "badges/source.png") ("penguin" +:+ ".png"))
       = dirname "badges/source.png" ∧
     basename (join (dirname "badges/source.png") ("penguin" +:+ ".png"))
       = "penguin" +:+ ".png" ∧
     dirname (join (dirname "badges/source.png") ("penguin" +:+ "@2x.png"))
       = dirname "badges/source.png" ∧
     basename (join (dirname "badges/source.png") ("penguin" +:+ "@2x.png"))
       = "penguin" +:+ "@2x.png").
Proof.
  apply (outputs_have_fixed_sizes demo_convert demo_ellipse demo_resize
           demo_png_size demo_write_to
           "badges/source.png" "penguin" demo_world).
  vm_compute. exact I.
Defined.


Lemma wrong_argument_count_exits_1_witness :
  let o := demo_main ["prog"; "badges/source.png"] demo_world in
  exit_status o = 1 ∧
  stdout (final_world o) = stdout demo_world ++ [MsgUsage] ∧
  fs (final_world o) = fs demo_world.
Proof.
  apply (wrong_argument_count_exits_1 demo_convert demo_ellipse demo_resize
           demo_png_size demo_write_to
           "prog" ["badges/source.png"] demo_world).
  simpl. lia.
Defined.

Lemma square_crop_then_detect_witness :
  ∃ cropped,
    square_crop demo_source = Ok cropped ∧
    size cropped = (height demo_source, height demo_source) ∧
    (∀ x y, data cropped x y =
              if in_bounds demo_source
                   (x + (width demo_source - height demo_source) `div` 2) y
              then data demo_source
                     (x + (width demo_source - height demo_source) `div` 2) y
              else zero_pixel (mode demo_source)) ∧
    match find_circle_bounds cropped default_threshold with
    | Ok (cx, cy, radius) =>
        ∃ rest,
          stdout (final_world
                    (demo_process_badge "badges/source.png" "penguin" demo_world)) =
            stdout demo_world
              ++ MsgSource (width demo_source) (height demo_source)
                 :: MsgCircle cx cy radius :: rest
    | Err e =>
        demo_process_badge "badges/source.png" "penguin" demo_world =
          Raise e (mkWorld (fs demo_world)
                     (stdout demo_world
                        ++ [MsgSource (width demo_source) (height demo_source)]))
    end.
Proof.
  apply (square_crop_then_detect demo_convert demo_ellipse demo_resize
           demo_png_size demo_write_to
           "badges/source.png" "penguin" demo_world
           (mkFile (Some demo_source) 9216) demo_source).
  - vm_compute. reflexivity.
  - reflexivity.
  - vm_compute. discriminate.
Defined.

(** The demo world after an earlier run left a stale file and some output. *)
Lemma process_badge_deterministic_witness :
  let w2 := mkWorld (<["badges/penguin.png" := mkFile None 3]> (fs demo_world))
              [MsgDone] in
  let o1 := final_world
              (demo_process_badge "badges/source.png" "penguin" demo_world) in
  let o2 := final_world (demo_process_badge "badges/source.png" "penguin" w2) in
  (completes (demo_process_badge "badges/source.png" "penguin" w2) ∨
   ∃ w', demo_process_badge "badges/source.png" "penguin" w2
           = Raise OSError w') ∧
  (completes (demo_process_badge "badges/source.png" "penguin" w2) →
   (∃ f1 f2,
      fs o1 !! path_1x "badges/source.png" "penguin" = Some f1 ∧
      fs o2 !! path_1x "badges/source.png" "penguin" = Some f1 ∧
      fs o1 !! path_2x "badges/source.png" "penguin" = Some f2 ∧
      fs o2 !! path_2x "badges/source.png" "penguin" = Some f2) ∧
   (∃ lines, stdout o1 = stdout demo_world ++ lines ∧
             stdout o2 = stdout w2 ++ lines) ∧
   (∀ p, p ≠ path_1x "badges/source.png" "penguin" →
         p ≠ path_2x "badges/source.png" "penguin" →
         fs o2 !! p = fs w2 !! p)) ∧
  (fs o1 !! "badges/source.png" = fs demo_world !! "badges/source.png" →
   completes (demo_process_badge "badges/source.png" "penguin" o1) →
   fs (final_world (demo_process_badge "badges/source.png" "penguin" o1))
     = fs o1).
Proof.
  apply (process_badge_deterministic demo_convert demo_ellipse demo_resize
           demo_png_size demo_write_to
           "badges/source.png" "penguin" demo_world
           (mkWorld (<["badges/penguin.png" := mkFile None 3]> (fs demo_world))
              [MsgDone])).
  - vm_compute. reflexivity.
  - vm_compute. exact I.
Defined.

(** * Further properties *)

(** ** The detector *)

Lemma for_each_ext {A S} (body1 body2 : S → A → result S) xs st :
  (∀ x st', x ∈ xs → body1 st' x = body2 st' x) →
  for_each body1 xs st = for_each body2 xs st.
Proof.
  revert st. induction xs as [|x xs IH]; intros st Hb; [done|]. simpl.
  rewrite Hb by left. destruct (body2 st x) as [st'|e]; simpl; [|done].
  apply IH. intros. apply Hb. by right.
Qed.

Lemma scan_ext px1 px2 t n :
  (∀ i, 0 ≤ i < n → px1 i ≫= slice3 = px2 i ≫= slice3) →
  scan px1 t n = scan px2 t n.
Proof.
  intros Hpx. unfold scan, range. apply for_each_ext.
  intros i st Hi%elem_of_seqZ. unfold scan_body.
  specialize (Hpx i ltac:(lia)).
  destruct (px1 i) as [p1|e1], (px2 i) as [p2|e2]; simpl in *;
    try (by rewrite Hpx); try (by rewrite <- Hpx); congruence.
Qed.

Lemma above_mono t t' p : t ≤ t' → above t' p → above t p.
Proof.
  intros Ht (r & g & b & rest & -> & Hlt). exists r, g, b, rest.
  split; [done|]. eapply Qle_lt_trans; [|done]. by rewrite <- Zle_Qle.
Qed.

Lemma brighter_mono px t t' i : t ≤ t' → brighter px t' i → brighter px t i.
Proof. intros Ht (p & Hp & Ha). exists p. eauto using above_mono. Qed.

(** The first bright index can only move left, and the last only right,
    when more indices count as bright. *)
Lemma first_in_le (P Q : Z → Prop) n a a' :
  (∀ i, Q i → P i) → first_in P n a → first_in Q n a' → a ≤ a'.
Proof.
  intros HQP (_ & _ & Hmin) (Ha' & HQ & _).
  destruct (decide (a ≤ a')) as [|Hn]; [done|]. destruct (Hmin a'); [lia|auto].
Qed.

Lemma last_in_ge (P Q : Z → Prop) n b b' :
  (∀ i, Q i → P i) → last_in P n b → last_in Q n b' → b' ≤ b.
Proof.
  intros HQP (_ & _ & Hmax) (Hb' & HQ & _).
  destruct (decide (b' ≤ b)) as [|Hn]; [done|]. destruct (Hmax b'); [lia|auto].
Qed.

Lemma find_circle_bounds_returns_aux img t :
  is_Ok (find_circle_bounds img t) ↔
  (∀ x, 0 ≤ x < width img → readable (row img (height img `div` 2)) x) ∧
  (∀ y, 0 ≤ y < height img → readable (column img (width img `div` 2)) y) ∧
  (∃ x, 0 ≤ x < width img ∧ brighter (row img (height img `div` 2)) t x) ∧
  (∃ y, 0 ≤ y < height img ∧ brighter (column img (width img `div` 2)) t y).
Proof.
  split.
  - intros [[[cx cy] radius] H].
    apply find_circle_bounds_scans in H as (fh & lh & fv & lv & Hh & Hv & _).
    destruct (scan_Ok _ _ _ _ Hh) as [_ Hrh].
    destruct (scan_Ok _ _ _ _ Hv) as [_ Hrv].
    apply scan_Some_bounds in Hh as [(? & ? & _) _].
    apply scan_Some_bounds in Hv as [(? & ? & _) _].
    eauto 10.
  - intros (Hrh & Hrv & Hbh & Hbv). by apply find_circle_bounds_total.
Qed.

(** X1: the detector returns a circle exactly when every pixel of the
    middle row and of the middle column can be unpacked into R, G, B and
    each of the two lines has a pixel above the threshold. *)
Theorem find_circle_bounds_returns_iff img t :
  is_Ok (find_circle_bounds img t) ↔
  (∀ x, 0 ≤ x < width img → readable (row img (height img `div` 2)) x) ∧
  (∀ y, 0 ≤ y < height img → readable (column img (width img `div` 2)) y) ∧
  (∃ x, 0 ≤ x < width img ∧ brighter (row img (height img `div` 2)) t x) ∧
  (∃ y, 0 ≤ y < height img ∧ brighter (column img (width img `div` 2)) t y).
Proof.
  split.
  - intros [[[cx cy] radius] H].
    apply find_circle_bounds_scans in H as (fh & lh & fv & lv & Hh & Hv & _).
    destruct (scan_Ok _ _ _ _ Hh) as [_ Hrh].
    destruct (scan_Ok _ _ _ _ Hv) as [_ Hrv].
    apply scan_Some_bounds in Hh as [(? & ? & _) _].
    apply scan_Some_bounds in Hv as [(? & ? & _) _].
    eauto 10.
  - intros (Hrh & Hrv & Hbh & Hbv). by apply find_circle_bounds_total.
Qed.

(** X2: the detector reads nothing but the middle row and the middle
    column, and of each pixel there nothing but its first three bands.
    Two pictures of the same size that agree on those give the same
    result, be it a circle or an exception. *)
Theorem find_circle_bounds_reads_midlines img1 img2 t :
  size img1 = size img2 →
  (∀ x, 0 ≤ x < width img1 →
        getitem img1 x (height img1 `div` 2) ≫= slice3 =
        getitem img2 x (height img1 `div` 2) ≫= slice3) →
  (∀ y, 0 ≤ y < height img1 →
        getitem img1 (width img1 `div` 2) y ≫= slice3 =
        getitem img2 (width img1 `div` 2) y ≫= slice3) →
  find_circle_bounds img1 t = find_circle_bounds img2 t.
Proof.
  intros Hsz Hrow Hcol. rewrite !find_circle_bounds_unfold.
  unfold width, height in *. rewrite <- Hsz.
  rewrite (scan_ext (row img1 _) (row img2 ((size img1).2 `div` 2)) t _ Hrow).
  by rewrite (scan_ext (column img1 _)
                (column img2 ((size img1).1 `div` 2)) t _ Hcol).
Qed.

Lemma find_circle_bounds_reads_midlines_witness :
  find_circle_bounds block_image 50 = find_circle_bounds block_image_rgba 50.
Proof.
  apply (find_circle_bounds_reads_midlines block_image block_image_rgba 50).
  - reflexivity.
  - intros x Hx. change (width block_image) with 7 in Hx.
    assert (x = 0 ∨ x = 1 ∨ x = 2 ∨ x = 3 ∨ x = 4 ∨ x = 5 ∨ x = 6)
      as Hc by lia.
    repeat (destruct Hc as [-> | Hc]); try subst x; reflexivity.
  - intros y Hy. change (height block_image) with 5 in Hy.
    assert (y = 0 ∨ y = 1 ∨ y = 2 ∨ y = 3 ∨ y = 4) as Hc by lia.
    repeat (destruct Hc as [-> | Hc]); try subst y; reflexivity.
Defined.

Lemma getitem_in_bounds img x y :
  0 ≤ x < width img → 0 ≤ y < height img →
  getitem img x y = Ok (data img x y).
Proof.
  intros Hx Hy. unfold getitem, in_bounds.
  rewrite (bool_decide_eq_false_2 (x < 0)), (bool_decide_eq_false_2 (y < 0))
    by lia.
  by rewrite !bool_decide_eq_true_2 by lia.
Qed.

Lemma getitem_outside img x y :
  0 ≤ x → 0 ≤ y → ¬ (x < width img ∧ y < height img) →
  getitem img x y = Err IndexError.
Proof.
  intros Hx Hy Hn. unfold getitem, in_bounds.
  rewrite (bool_decide_eq_false_2 (x < 0)), (bool_decide_eq_false_2 (y < 0))
    by lia.
  destruct (bool_decide (0 ≤ x < width img)) eqn:Ex; [|done].
  apply bool_decide_eq_true_1 in Ex.
  by rewrite (bool_decide_eq_false_2 (0 ≤ y < height img)) by lia.
Qed.

(** A scan of a non-empty line whose first pixel cannot be read raises at
    once. *)
Lemma scan_first_Err (px : Z → result Pixel) t n e :
  1 ≤ n → (px 0 ≫= slice3) ≫= unpack3 = Err e → scan px t n = Err e.
Proof.
  intros Hn Hpx. unfold scan, range. rewrite seqZ_cons by lia. simpl.
  unfold scan_body. destruct (px 0) as [p|?]; simpl in *; [|congruence].
  destruct (slice3 p) as [s|?]; simpl in *; [|congruence].
  destruct (unpack3 s) as [[[r g] b]|?]; simpl in *; [done|congruence].
Qed.

Lemma scan_empty (px : Z → result Pixel) t n : n ≤ 0 → scan px t n = Ok (None, None).
Proof. intros Hn. unfold scan, range. by rewrite seqZ_nil. Qed.

(** X3: a picture whose pixels are not colour tuples makes the detector
    raise on the first pixel it reads, the leftmost one of the middle row:
    [TypeError] when the pixel is an [int] (single-band modes), as
    [p[:3]] slices it, and [ValueError] when it has fewer than three
    bands, as the unpacking to [r, g, b] fails. *)
Theorem find_circle_bounds_unreadable_pixel img t :
  1 ≤ width img → 1 ≤ height img →
  match data img 0 (height img `div` 2) with
  | PInt _ => find_circle_bounds img t = Err TypeError
  | PTuple bands =>
      (length bands < 3)%nat → find_circle_bounds img t = Err ValueError
  end.
Proof.
  intros Hw Hh. rewrite find_circle_bounds_unfold.
  assert (row img (height img `div` 2) 0
          = Ok (data img 0 (height img `div` 2))) as Hpx.
  { apply getitem_in_bounds; div_lia. }
  destruct (data img 0 (height img `div` 2)) as [v|bands].
  - rewrite (scan_first_Err (row img (height img `div` 2)) t _ TypeError);
      [done|lia|]. by rewrite Hpx.
  - intros Hlen.
    rewrite (scan_first_Err (row img (height img `div` 2)) t _ ValueError);
      [done|lia|].
    rewrite Hpx. by destruct bands as [|? [|? [|? ?]]]; simpl in *; try lia.
Qed.

Lemma find_circle_bounds_unreadable_pixel_witness :
  find_circle_bounds grey_image 50 = Err TypeError ∧
  find_circle_bounds grey_alpha_image 50 = Err ValueError.
Proof.
  split.
  - apply (find_circle_bounds_unreadable_pixel grey_image 50);
      vm_compute; discriminate.
  - apply (find_circle_bounds_unreadable_pixel grey_alpha_image 50);
      [vm_compute; discriminate .. | simpl; lia].
Defined.

(** X4: lowering the threshold never loses the circle and never shrinks
    it: if the detector returns a circle for a threshold, it returns one
    for every lower threshold, with a radius at least as large. *)
Theorem lower_threshold_keeps_circle img t t' cx' cy' radius' :
  t ≤ t' →
  find_circle_bounds img t' = Ok (cx', cy', radius') →
  ∃ cx cy radius,
    find_circle_bounds img t = Ok (cx, cy, radius) ∧ radius' ≤ radius.
Proof.
  intros Ht H'.
  assert (is_Ok (find_circle_bounds img t)) as [[[cx cy] radius] H].
  { apply find_circle_bounds_returns_aux.
    destruct (proj1 (find_circle_bounds_returns_aux img t') (ex_intro _ _ H'))
      as (Hrh & Hrv & (x & Hx & Hbx) & (y & Hy & Hby)).
    repeat split; eauto using brighter_mono. }
  exists cx, cy, radius. split; [done|].
  apply find_circle_bounds_scans in H
    as (fh & lh & fv & lv & Hh & Hv & _ & _ & ->).
  apply find_circle_bounds_scans in H'
    as (fh' & lh' & fv' & lv' & Hh' & Hv' & _ & _ & ->).
  apply scan_Some_bounds in Hh as [Hfh Hlh], Hv as [Hfv Hlv].
  apply scan_Some_bounds in Hh' as [Hfh' Hlh'], Hv' as [Hfv' Hlv'].
  assert (∀ px i, brighter px t' i → brighter px t i) as Hm
    by eauto using brighter_mono.
  pose proof (first_in_le _ _ _ _ _ (Hm _) Hfh Hfh').
  pose proof (last_in_ge _ _ _ _ _ (Hm _) Hlh Hlh').
  pose proof (first_in_le _ _ _ _ _ (Hm _) Hfv Hfv').
  pose proof (last_in_ge _ _ _ _ _ (Hm _) Hlv Hlv').
  div_lia.
Qed.

Lemma lower_threshold_keeps_circle_witness :
  ∃ cx cy radius,
    find_circle_bounds block_image 20 = Ok (cx, cy, radius) ∧ 6 ≤ radius.
Proof.
  apply (lower_threshold_keeps_circle block_image 20 100 3 2 6).
  - lia.
  - vm_compute. reflexivity.
Defined.

(** X5: the radius never exceeds half the larger side of the picture plus
    the margin: [radius <= max((w - 1) // 2, (h - 1) // 2) + 5]. *)
Theorem find_circle_bounds_radius_le img t cx cy radius :
  find_circle_bounds img t = Ok (cx, cy, radius) →
  radius ≤ Z.max ((width img - 1) `div` 2) ((height img - 1) `div` 2) + 5.
Proof.
  intros (fh & lh & fv & lv & Hh & Hv & _ & _ & ->)%find_circle_bounds_scans.
  apply scan_Some_bounds in Hh as [(? & _) (? & _)].
  apply scan_Some_bounds in Hv as [(? & _) (? & _)].
  div_lia.
Qed.

Lemma find_circle_bounds_radius_le_witness :
  6 ≤ Z.max ((width block_image - 1) `div` 2)
            ((height block_image - 1) `div` 2) + 5.
Proof.
  apply (find_circle_bounds_radius_le block_image 50 3 2 6). vm_compute.
  reflexivity.
Defined.

(** X6: when every pixel of both midlines is above the threshold, the
    spans are the whole lines: the centre is [((w - 1) // 2, (h - 1) // 2)]
    and the radius the bound of X5. *)
Theorem find_circle_bounds_all_bright img t :
  1 ≤ width img → 1 ≤ height img →
  (∀ x, 0 ≤ x < width img → brighter (row img (height img `div` 2)) t x) →
  (∀ y, 0 ≤ y < height img → brighter (column img (width img `div` 2)) t y) →
  find_circle_bounds img t =
    Ok ((width img - 1) `div` 2, (height img - 1) `div` 2,
        Z.max ((width img - 1) `div` 2) ((height img - 1) `div` 2) + 5).
Proof.
  intros Hw Hh Hbh Hbv.
  assert (is_Ok (find_circle_bounds img t)) as [[[cx cy] radius] H].
  { apply find_circle_bounds_returns_aux. repeat split.
    - intros x Hx. eapply brighter_readable; eauto.
    - intros y Hy. eapply brighter_readable; eauto.
    - exists 0. split; [lia|]. apply Hbh. lia.
    - exists 0. split; [lia|]. apply Hbv. lia. }
  rewrite H. apply find_circle_bounds_scans in H
    as (fh & lh & fv & lv & Hh' & Hv' & -> & -> & ->).
  apply scan_Some_bounds in Hh' as [(? & _ & Hfh) (? & _ & Hlh)].
  apply scan_Some_bounds in Hv' as [(? & _ & Hfv) (? & _ & Hlv)].
  assert (fh = 0).
  { destruct (decide (fh = 0)); [done|]. destruct (Hfh 0); [lia|]. apply Hbh. lia. }
  assert (fv = 0).
  { destruct (decide (fv = 0)); [done|]. destruct (Hfv 0); [lia|]. apply Hbv. lia. }
  assert (lh = width img - 1).
  { destruct (decide (lh = width img - 1)); [done|].
    destruct (Hlh (width img - 1)); [lia|]. apply Hbh. lia. }
  assert (lv = height img - 1).
  { destruct (decide (lv = height img - 1)); [done|].
    destruct (Hlv (height img - 1)); [lia|]. apply Hbv. lia. }
  subst. by rewrite !Z.add_0_l, !Z.sub_0_r.
Qed.

Lemma find_circle_bounds_all_bright_witness :
  find_circle_bounds white_image 50 =
    Ok ((width white_image - 1) `div` 2, (height white_image - 1) `div` 2,
        Z.max ((width white_image - 1) `div` 2)
              ((height white_image - 1) `div` 2) + 5).
Proof.
  apply (find_circle_bounds_all_bright white_image 50).
  - vm_compute. discriminate.
  - vm_compute. discriminate.
  - intros x Hx. exists (PTuple [255; 255; 255]). split.
    + apply (getitem_in_bounds white_image); [done|].
      change (0 ≤ 1 < 3). lia.
    + exists 255, 255, 255, []. split; reflexivity.
  - intros y Hy. exists (PTuple [255; 255; 255]). split.
    + apply (getitem_in_bounds white_image); [|done].
      change (0 ≤ 2 < 5). lia.
    + exists 255, 255, 255, []. split; reflexivity.
Defined.

(** X7: pictures without pixels.  With no column and no row, neither loop
    runs and the arithmetic on the unset bounds raises [TypeError]; with
    rows but no column, or columns but no row, the first pixel access is
    out of range and raises [IndexError]. *)
Theorem find_circle_bounds_no_pixels img t :
  (width img = 0 → height img = 0 →
   find_circle_bounds img t = Err TypeError) ∧
  (width img = 0 → 1 ≤ height img →
   find_circle_bounds img t = Err IndexError) ∧
  (1 ≤ width img → height img = 0 →
   find_circle_bounds img t = Err IndexError).
Proof.
  rewrite find_circle_bounds_unfold. repeat split.
  - intros Hw Hh. by rewrite !scan_empty by lia.
  - intros Hw Hh. rewrite (scan_empty (row _ _)) by lia. simpl.
    rewrite (scan_first_Err (column img (width img `div` 2)) t _ IndexError);
      [done|lia|].
    unfold column. rewrite getitem_outside; [done|div_lia..].
  - intros Hw Hh.
    rewrite (scan_first_Err (row img (height img `div` 2)) t _ IndexError);
      [done|lia|].
    unfold row. rewrite getitem_outside; [done|div_lia..].
Qed.

Lemma find_circle_bounds_no_pixels_witness :
  find_circle_bounds empty_image 50 = Err TypeError ∧
  find_circle_bounds thin_image 50 = Err IndexError ∧
  find_circle_bounds flat_image 50 = Err IndexError.
Proof.
  split; [|split].
  - apply (proj1 (find_circle_bounds_no_pixels empty_image 50)); reflexivity.
  - apply (proj1 (proj2 (find_circle_bounds_no_pixels thin_image 50)));
      [reflexivity | change (1 ≤ 3); lia].
  - apply (proj2 (proj2 (find_circle_bounds_no_pixels flat_image 50)));
      [change (1 ≤ 3); lia | reflexivity].
Defined.

Lemma for_each_Err {A S} (body : S → A → result S) xs st e :
  for_each body xs st = Err e → ∃ x st', x ∈ xs ∧ body st' x = Err e.
Proof.
  revert st. induction xs as [|x xs IH]; intros st; simpl; [done|].
  destruct (body st x) as [st1|e1] eqn:Hb; simpl.
  - intros (y & st' & Hy & H)%IH. exists y, st'. split; [by right | done].
  - intros [= ->]. exists x, st. split; [by left | done].
Qed.

Lemma scan_Err (px : Z → result Pixel) t n e :
  scan px t n = Err e →
  ∃ i, 0 ≤ i < n ∧ (px i ≫= slice3) ≫= unpack3 = Err e.
Proof.
  unfold scan, range. intros (i & st & Hi%elem_of_seqZ & H)%for_each_Err.
  exists i. split; [lia|]. unfold scan_body in H.
  destruct (px i) as [p|?]; simpl in *; [|by simplify_eq].
  destruct (slice3 p) as [s|?]; simpl in *; [|by simplify_eq].
  by destruct (unpack3 s) as [[[r g] b]|?]; simpl in *; simplify_eq.
Qed.

(** Reading and unpacking one pixel raises [IndexError] outside the grid,
    [TypeError] on an [int] and [ValueError] on a tuple of the wrong
    length, and nothing else. *)
Lemma read_pixel_Err img x y e :
  (getitem img x y ≫= slice3) ≫= unpack3 = Err e →
  e = TypeError ∨ e = ValueError ∨
  (e = IndexError ∧ ¬ (0 ≤ x < width img ∧ 0 ≤ y < height img)).
Proof.
  destruct (getitem img x y) as [p|e'] eqn:Hg; simpl.
  - destruct p as [v|bands]; simpl; [intros [= <-]; auto|].
    destruct (take 3 bands) as [|? [|? [|? [|? ?]]]]; simpl;
      intros [= <-]; auto.
  - intros [= <-]. right; right.
    destruct (decide (0 ≤ x < width img ∧ 0 ≤ y < height img)) as [[??]|Hn].
    { by rewrite getitem_in_bounds in Hg. }
    split; [|done]. unfold getitem in Hg.
    by destruct (in_bounds _ _ _); simplify_eq.
Qed.

(** X8: the detector raises nothing but [TypeError], [ValueError] and
    [IndexError], and [IndexError] only on a picture without pixels: on a
    picture with at least one row and one column every pixel access of
    the two scans is in range. *)
Theorem find_circle_bounds_exceptions img t e :
  find_circle_bounds img t = Err e →
  e = TypeError ∨ e = ValueError ∨
  (e = IndexError ∧ (width img < 1 ∨ height img < 1)).
Proof.
  rewrite find_circle_bounds_unfold.
  destruct (scan (row img _) t _) as [[fh lh]|e1] eqn:Hh; simpl.
  2:{ intros [= <-]. apply scan_Err in Hh as (i & Hi & H).
      apply read_pixel_Err in H as [?|[?|[? Hn]]]; [auto..|].
      right; right. split; [done|]. div_lia. }
  destruct (scan (column img _) t _) as [[fv lv]|e1] eqn:Hv; simpl.
  2:{ intros [= <-]. apply scan_Err in Hv as (i & Hi & H).
      apply read_pixel_Err in H as [?|[?|[? Hn]]]; [auto..|].
      right; right. split; [done|]. div_lia. }
  destruct fh, lh, fv, lv; simpl; intros [= <-]; auto.
Qed.

Lemma find_circle_bounds_exceptions_witness :
  IndexError = TypeError ∨ IndexError = ValueError ∨
  (IndexError = IndexError ∧ (width flat_image < 1 ∨ height flat_image < 1)).
Proof.
  apply (find_circle_bounds_exceptions flat_image 50 IndexError).
  vm_compute. reflexivity.
Defined.

(** ** The pipeline, continued *)

Section PipelineExtras.

Context (convert_data : Image → Mode → Z → Z → Pixel)
        (ellipse_fill : Box → Z → Z → bool)
        (lanczos : Image → Z * Z → Z → Z → Pixel)
        (png_size : Image → Z)
        (write_to : gmap string File → string → Image → Write).

Local Abbreviation process_badge :=
  (process_badge convert_data ellipse_fill lanczos png_size write_to).
Local Abbreviation main :=
  (main convert_data ellipse_fill lanczos png_size write_to).
Local Abbreviation masked_canvas := (masked_canvas convert_data ellipse_fill).
Local Abbreviation Image_resize := (Image_resize lanczos).
Local Abbreviation Image_paste := (Image_paste convert_data).
Local Abbreviation written_1x := (written_1x lanczos png_size).
Local Abbreviation write_1x := (write_1x lanczos write_to).
Local Abbreviation write_2x := (write_2x lanczos png_size write_to).

(** X9: on the square crop the tight crop never raises for the circle the
    detector returned there: the clamped box is not inverted.  Each side
    of the tight crop has at least one pixel and at least [min(radius,
    side)], and at most [2 * radius] and at most the side of the square. *)
Theorem tight_crop_fits cropped cx cy radius :
  width cropped = height cropped →
  find_circle_bounds cropped default_threshold = Ok (cx, cy, radius) →
  ∃ tight,
    tight_crop (height cropped) cropped (cx, cy, radius) = Ok tight ∧
    1 ≤ width tight ∧ 1 ≤ height tight ∧
    Z.min radius (height cropped) ≤ width tight
      ≤ Z.min (2 * radius) (height cropped) ∧
    Z.min radius (height cropped) ≤ height tight
      ≤ Z.min (2 * radius) (height cropped).
Proof.
  intros Hsq Hfc.
  apply find_circle_bounds_scans in Hfc
    as (fh & lh & fv & lv & Hh & Hv & -> & -> & ->).
  apply scan_Some_bounds in Hh as [Hfh Hlh].
  apply scan_Some_bounds in Hv as [Hfv Hlv].
  destruct (span_in_range _ _ _ _ Hfh Hlh) as [Hx Hsh].
  destruct (span_in_range _ _ _ _ Hfv Hlv) as [Hy Hsv].
  set (cx := (fh + lh) `div` 2) in *. set (cy := (fv + lv) `div` 2) in *.
  set (radius := Z.max _ _ + 5).
  assert (5 ≤ radius) as Hr by (unfold radius; lia).
  clearbody cx cy radius.
  unfold tight_crop, Image_crop. rewrite !bool_decide_eq_false_2 by lia.
  eexists. split; [done|]. unfold width, height in *. cbn [size fst snd]. lia.
Qed.

Lemma square_crop_mode img cropped :
  square_crop img = Ok cropped → mode cropped = mode img.
Proof.
  unfold square_crop. destruct (size img) as [w0 h0].
  by intros (_ & _ & ? & _)%Image_crop_Ok.
Qed.

(** X10: the two crops compose to a translation of the source.  Pixel
    [(x, y)] of the tight crop is pixel [(x + dx, y + dy)] of the source
    with [dx = max(0, cx - radius) + (w - h) // 2] and
    [dy = max(0, cy - radius)], and zeros where that column falls outside
    the source (a source narrower than it is high); nothing is scaled or
    mirrored, and the mode is the source's. *)
Theorem tight_crop_translates img cropped cx cy radius tight :
  square_crop img = Ok cropped →
  tight_crop (height img) cropped (cx, cy, radius) = Ok tight →
  mode tight = mode img ∧
  ∀ x y, 0 ≤ x < width tight → 0 ≤ y < height tight →
    let dx := Z.max 0 (cx - radius) + (width img - height img) `div` 2 in
    let dy := Z.max 0 (cy - radius) in
    data tight x y = if in_bounds img (x + dx) (y + dy)
                     then data img (x + dx) (y + dy)
                     else zero_pixel (mode img).
Proof.
  intros Hsq Ht. pose proof (square_crop_mode _ _ Hsq) as Hmode.
  apply square_crop_Ok in Hsq as (Hh & Hsz & Hd).
  unfold tight_crop in Ht.
  apply Image_crop_Ok in Ht as (Hlr & Htb & Hmt & Hst & Hdt).
  split; [congruence|]. intros x y Hx Hy dx dy.
  unfold width, height in Hx, Hy. rewrite Hst in Hx, Hy.
  cbn [fst snd] in Hx, Hy. rewrite Hdt.
  assert (in_bounds cropped (x + Z.max 0 (cx - radius))
            (y + Z.max 0 (cy - radius)) = true) as ->.
  { unfold in_bounds, width, height. rewrite Hsz. cbn [fst snd].
    fold (height img). by rewrite !bool_decide_eq_true_2 by lia. }
  rewrite Hd. unfold dx, dy. by rewrite <- Z.add_assoc.
Qed.

(** X11: the layout of the masked canvas.  It is a square of side
    [d = max(tw, th)]; the tight crop sits at [(ox, oy)] with
    [ox = (d - tw) // 2] and [oy = (d - th) // 2], so the free margins on
    either side differ by at most one pixel.  Inside that rectangle a
    canvas pixel has the first three bands of the pasted pixel, outside it
    they are 0; everywhere the fourth band is the mask value, 255 where
    the ellipse call for the box [(8, 8, d - 8, d - 8)] fills and 0
    elsewhere, whatever alpha was pasted. *)
Theorem masked_canvas_layout tight canvas :
  masked_canvas tight = Ok canvas →
  let d := Z.max (width tight) (height tight) in
  let ox := (d - width tight) `div` 2 in
  let oy := (d - height tight) `div` 2 in
  let pasted := if decide (mode tight = M_RGBA) then tight
                else Image_convert convert_data tight M_RGBA in
  size canvas = (d, d) ∧
  0 ≤ ox ∧ 0 ≤ (d - width tight - ox) - ox ≤ 1 ∧
  0 ≤ oy ∧ 0 ≤ (d - height tight - oy) - oy ≤ 1 ∧
  ∀ x y, 0 ≤ x < d → 0 ≤ y < d →
    let a := if ellipse_fill (8, 8, d - 8, d - 8) x y then 255 else 0 in
    data canvas x y =
      if bool_decide (ox ≤ x < ox + width tight ∧ oy ≤ y < oy + height tight)
      then let p := data pasted (x - ox) (y - oy) in
           PTuple [band 0 p; band 1 p; band 2 p; a]
      else PTuple [0; 0; 0; a].
Proof using convert_data ellipse_fill.
  clear lanczos png_size write_to. unfold masked_canvas, width, height.
  destruct (size tight) as [tw th] eqn:Hsz. cbn [fst snd].
  set (d := Z.max tw th). intros H.
  apply bind_Ok in H as (square_img & Hsq & H).
  apply bind_Ok in H as (mask0 & Hm0 & H).
  apply bind_Ok in H as (mask & Hm & [= <-]).
  unfold Image_new in Hsq, Hm0. cbn [fst snd] in Hsq, Hm0.
  case_bool_decide; [done|]. injection Hsq as <-. injection Hm0 as <-.
  unfold ImageDraw_ellipse in Hm. repeat case_bool_decide; try done.
  injection Hm as <-.
  split; [done|]. repeat (split; [div_lia|]).
  intros x y Hx Hy. cbn [data Image_putalpha Image_paste mode size].
  assert (∀ m c, in_bounds (mkImage m (d, d) c) x y = true) as ->.
  { intros. unfold in_bounds, width, height. cbn [size fst snd].
    by rewrite !bool_decide_eq_true_2. }
  cbn [andb].
  assert (gray (if ellipse_fill (8, 8, d - 8, d - 8) x y
                then PInt 255 else PInt 0)
          = if ellipse_fill (8, 8, d - 8, d - 8) x y then 255 else 0) as ->
    by (by destruct (ellipse_fill _ x y)).
  set (pasted := if decide (mode tight = M_RGBA) then tight
                 else Image_convert convert_data tight M_RGBA).
  assert (size pasted = (tw, th)) as Hps.
  { unfold pasted. by destruct (decide _). }
  unfold in_bounds, width, height. rewrite Hps. cbn [fst snd].
  destruct (bool_decide (0 ≤ x - (d - tw) `div` 2 < tw)) eqn:E1;
    destruct (bool_decide (0 ≤ y - (d - th) `div` 2 < th)) eqn:E2;
    cbn [andb];
    try apply bool_decide_eq_true_1 in E1; try apply bool_decide_eq_true_1 in E2;
    try apply bool_decide_eq_false_1 in E1; try apply bool_decide_eq_false_1 in E2.
  - by rewrite bool_decide_eq_true_2 by lia.
  - by rewrite bool_decide_eq_false_2 by lia.
  - by rewrite bool_decide_eq_false_2 by lia.
  - by rewrite bool_decide_eq_false_2 by lia.
Qed.



Lemma startswith_sep_app (name ext : string) :
  startswith_sep name = true → startswith_sep (name +:+ ext) = true.
Proof. by destruct name. Qed.

(** X15: an output name that starts with a separator is not placed in the
    source's directory: [os.path.join] drops the directory, and a run that
    completes has written its two files at [<name>.png] and
    [<name>@2x.png] themselves. *)
Theorem absolute_output_name src name w :
  startswith_sep name = true →
  completes (process_badge src name w) →
  let w' := final_world (process_badge src name w) in
  ∃ img1 img2,
    fs w' !! (name +:+ ".png") = Some (mkFile (Some img1) (png_size img1)) ∧
    size img1 = (256, 256) ∧
    fs w' !! (name +:+ "@2x.png") = Some (mkFile (Some img2) (png_size img2)) ∧
    size img2 = (512, 512).
Proof.
  intros Hn Hc. destruct (process_badge_completes _ _ _ _ _ _ _ _ Hc)
    as (f & img & cropped & circle & tight & canvas
        & Hf & Hi & Hsq & Hfc & Ht & Hm & Hw1 & Hw2).
  rewrite (process_badge_run _ _ _ _ _ _ _ _ _ _ _ _ _ _
             Hf Hi Hsq Hfc Ht Hm Hw1 Hw2).
  cbn [final_world fs].
  assert (path_1x src name = name +:+ ".png") as H1.
  { unfold path_1x, join. by rewrite startswith_sep_app. }
  assert (path_2x src name = name +:+ "@2x.png") as H2.
  { unfold path_2x, join. by rewrite startswith_sep_app. }
  exists (Image_resize canvas (256, 256)), (Image_resize canvas (512, 512)).
  rewrite <- H1, <- H2, !written_lookup.
  rewrite (decide_False (P := path_1x src name = path_2x src name))
    by apply path_1x_2x_ne.
  by rewrite !decide_True.
Qed.

(** The exceptions of the single steps. *)
Lemma Image_crop_Err img box e : Image_crop img box = Err e → e = ValueError.
Proof.
  destruct box as [[[l t0] r] b]. unfold Image_crop.
  repeat case_bool_decide; intros; by simplify_eq.
Qed.

Lemma masked_canvas_Err tight e : masked_canvas tight = Err e → e = ValueError.
Proof using convert_data ellipse_fill.
  clear lanczos png_size write_to.
  unfold masked_canvas. destruct (size tight) as [tw th].
  unfold Image_new, ImageDraw_ellipse. cbn [fst snd].
  repeat (case_bool_decide; cbn [mbind result_bind]);
    intros; by simplify_eq.
Qed.

Lemma find_circle_bounds_Err_kind img t e :
  find_circle_bounds img t = Err e →
  e = TypeError ∨ e = ValueError ∨ e = IndexError.
Proof.
  rewrite find_circle_bounds_unfold.
  destruct (scan (row img _) t _) as [[fh lh]|e1] eqn:Hh; simpl.
  2:{ intros [= <-]. apply scan_Err in Hh as (i & _ & H).
      apply read_pixel_Err in H as [?|[?|[? _]]]; auto. }
  destruct (scan (column img _) t _) as [[fv lv]|e1] eqn:Hv; simpl.
  2:{ intros [= <-]. apply scan_Err in Hv as (i & _ & H).
      apply read_pixel_Err in H as [?|[?|[? _]]]; auto. }
  destruct fh, lh, fv, lv; simpl; intros [= <-]; auto.
Qed.

(** No step of a run raises [SystemExit]: a run that raises ends the
    process with status 1. *)
Lemma lib_exn_status {A} e w : exit_status (Raise (A := A) (lib_exn e) w) = 1.
Proof. by destruct e. Qed.

Lemma process_badge_Raise_status src name w e w' :
  process_badge src name w = Raise e w' →
  exit_status (Raise (A := unit) e w') = 1.
Proof.
  rewrite process_badge_cases.
  destruct (fs w !! src) as [f|] eqn:Hf; [|by intros [= <- <-]].
  destruct (content f) as [img|] eqn:Hc.
  2:{ destruct (failure f) as [e1|sz e1]; intros [= <- <-];
        apply lib_exn_status. }
  cbv zeta.
  destruct (square_crop img) as [cropped|e1] eqn:Hsq.
  2:{ intros [= <- <-]. unfold square_crop in Hsq. destruct (size img).
      by apply Image_crop_Err in Hsq as ->. }
  destruct (find_circle_bounds cropped default_threshold)
    as [circle|e1] eqn:Hfc.
  2:{ intros [= <- <-].
      by apply find_circle_bounds_Err_kind in Hfc as [-> | [-> | ->]]. }
  destruct (tight_crop (height img) cropped circle) as [tight|e1] eqn:Ht.
  2:{ intros [= <- <-]. unfold tight_crop in Ht. destruct circle as [[??]?].
      by apply Image_crop_Err in Ht as ->. }
  destruct (masked_canvas tight) as [canvas|e1] eqn:Hm.
  2:{ intros [= <- <-]. by apply masked_canvas_Err in Hm as ->. }
  destruct (write_1x src name canvas (fs w)); [|by intros [= <- <-]].
  destruct (write_2x src name canvas (fs w)); [done | by intros [= <- <-]].
Qed.

(** X17: when the run completes, the process prints [Done!] as its last
    line and exits with status 0, the two files written. *)
Theorem main_success prog src name w :
  completes (process_badge src name w) →
  let o := main [prog; src; name] w in
  exit_status o = 0 ∧
  fs (final_world o) = fs (final_world (process_badge src name w)) ∧
  stdout (final_world o) =
    stdout (final_world (process_badge src name w)) ++ [MsgDone].
Proof.
  intros Hc. destruct (process_badge_completes _ _ _ _ _ _ _ _ Hc)
    as (f & _ & _ & _ & _ & _ & Hf & _).
  unfold main. simpl. unfold mbind, Proc_bind, path_exists.
  rewrite bool_decide_eq_true_2 by (by rewrite Hf). simpl.
  by destruct (process_badge src name w).
Qed.

(** X18: when the source path exists but the run raises (the file is not
    a picture, no circle is found, a write fails, ...), nothing catches the
    exception: the process ends where the run ended, without [Done!], and
    its exit status is 1. *)
Theorem main_uncaught prog src name w :
  is_Some (fs w !! src) →
  ¬ completes (process_badge src name w) →
  let o := main [prog; src; name] w in
  o = process_badge src name w ∧
  exit_status o = 1.
Proof.
  intros Hf Hc. unfold main. simpl. unfold mbind, Proc_bind, path_exists.
  rewrite bool_decide_eq_true_2 by done. simpl.
  destruct (process_badge src name w) as [[] w'|e w'] eqn:Hp; [by destruct Hc|].
  split; [done|]. by apply process_badge_Raise_status in Hp.
Qed.

(** X19: the exit status is 0 or 1, whatever the arguments and the file
    system, and it is 0 exactly when the process returns normally: the
    only [sys.exit] is [sys.exit(1)], and no step of a run raises
    [SystemExit]. *)
Theorem main_exit_status (argv : list string) w :
  let o := main argv w in
  (exit_status o = 0 ∨ exit_status o = 1) ∧
  (exit_status o = 0 ↔ completes o).
Proof.
  unfold main. case_bool_decide as Hlen; [by split; [right|]|].
  destruct argv as [|prog [|src [|name [|? ?]]]]; simpl in Hlen; try done.
  simpl. unfold mbind, Proc_bind, path_exists.
  destruct (bool_decide (is_Some (fs w !! src))); simpl; [|by split; [right|]].
  destruct (process_badge src name w) as [[] w'|e w'] eqn:Hp; simpl.
  { by split; [left|]. }
  apply process_badge_Raise_status in Hp as Hst.
  simpl in Hst. rewrite Hst. by split; [right|].
Qed.

End PipelineExtras.

(** ** The further properties on the examples *)

Lemma tight_crop_fits_witness :
  ∃ tight,
    tight_crop (height demo_square) demo_square (24, 24, 15) = Ok tight ∧
    1 ≤ width tight ∧ 1 ≤ height tight ∧
    Z.min 15 (height demo_square) ≤ width tight
      ≤ Z.min (2 * 15) (height demo_square) ∧
    Z.min 15 (height demo_square) ≤ height tight
      ≤ Z.min (2 * 15) (height demo_square).
Proof.
  apply (tight_crop_fits demo_square 24 24 15).
  - reflexivity.
  - vm_compute. reflexivity.
Defined.

Lemma tight_crop_translates_witness :
  match square_crop demo_source with
  | Ok cropped =>
      match tight_crop (height demo_source) cropped (24, 24, 15) with
      | Ok tight =>
          mode tight = mode demo_source ∧
          ∀ x y, 0 ≤ x < width tight → 0 ≤ y < height tight →
            let dx := Z.max 0 (24 - 15)
                      + (width demo_source - height demo_source) `div` 2 in
            let dy := Z.max 0 (24 - 15) in
            data tight x y = if in_bounds demo_source (x + dx) (y + dy)
                             then data demo_source (x + dx) (y + dy)
                             else zero_pixel (mode demo_source)
      | Err _ => False
      end
  | Err _ => False
  end.
Proof.
  destruct (square_crop demo_source) as [cropped|e] eqn:Hsq;
    [|vm_compute in Hsq; discriminate].
  destruct (tight_crop (height demo_source) cropped (24, 24, 15))
    as [tight|e] eqn:Ht.
  - exact (tight_crop_translates demo_source cropped 24 24 15 tight Hsq Ht).
  - vm_compute in Hsq. injection Hsq as <-. vm_compute in Ht. discriminate.
Defined.

Lemma masked_canvas_layout_witness :
  match masked_canvas demo_convert demo_ellipse gradient_rgba with
  | Ok canvas =>
      size canvas = (20, 20) ∧
      data canvas 10 0 = PTuple [0; 0; 0; 0] ∧
      data canvas 10 10 = PTuple [10; 9; 19; 255]
  | Err _ => False
  end.
Proof.
  destruct (masked_canvas demo_convert demo_ellipse gradient_rgba)
    as [canvas|e] eqn:Hm; [|vm_compute in Hm; discriminate].
  destruct (masked_canvas_layout demo_convert demo_ellipse gradient_rgba
              canvas Hm) as (Hsz & _ & _ & _ & _ & Hpx).
  split; [exact Hsz|]. split.
  - rewrite Hpx; [reflexivity | vm_compute; split; [discriminate|reflexivity] ..].
  - rewrite Hpx; [reflexivity | vm_compute; split; [discriminate|reflexivity] ..].
Defined.

Lemma masked_canvas_margin_transparent_witness :
  match masked_canvas demo_convert demo_ellipse gradient_rgba with
  | Ok canvas =>
      let d := width canvas in
      height canvas = d ∧
      (∀ x y, 0 ≤ x < d → 0 ≤ y < d →
              x < 8 ∨ d - 8 < x ∨ y < 8 ∨ d - 8 < y →
              alpha (data canvas x y) = Some 0) ∧
      alpha (data canvas 0 0) = Some 0 ∧
      alpha (data canvas (d - 1) 0) = Some 0 ∧
      alpha (data canvas 0 (d - 1)) = Some 0 ∧
      alpha (data canvas (d - 1) (d - 1)) = Some 0
  | Err _ => False
  end.
Proof.
  destruct (masked_canvas demo_convert demo_ellipse gradient_rgba)
    as [canvas|e] eqn:Hm; [|vm_compute in Hm; discriminate].
  apply (masked_canvas_margin_transparent demo_convert demo_ellipse
           gradient_rgba canvas Hm).
  unfold masked_canvas in Hm. vm_compute in Hm. injection Hm as <-.
  intros x y H. apply bool_decide_eq_true_1 in H.
  change (((2 * x - (8 + 12)) * (12 - 8)) ^ 2
          + ((2 * y - (8 + 12)) * (12 - 8)) ^ 2 ≤ ((12 - 8) * (12 - 8)) ^ 2)
    in H.
  change (8 ≤ x ≤ 12 ∧ 8 ≤ y ≤ 12). nia.
Defined.


Lemma absolute_output_name_witness :
  let w' := final_world
              (demo_process_badge "badges/source.png" "/tmp/penguin" demo_world) in
  ∃ img1 img2,
    fs w' !! ("/tmp/penguin" +:+ ".png")
      = Some (mkFile (Some img1) (demo_png_size img1)) ∧
    size img1 = (256, 256) ∧
    fs w' !! ("/tmp/penguin" +:+ "@2x.png")
      = Some (mkFile (Some img2) (demo_png_size img2)) ∧
    size img2 = (512, 512).
Proof.
  apply (absolute_output_name demo_convert demo_ellipse demo_resize
           demo_png_size demo_write_to
           "badges/source.png" "/tmp/penguin" demo_world).
  - reflexivity.
  - vm_compute. exact I.
Defined.

Lemma main_success_witness :
  let o := demo_main ["prog"; "badges/source.png"; "penguin"] demo_world in
  exit_status o = 0 ∧
  fs (final_world o)
    = fs (final_world
            (demo_process_badge "badges/source.png" "penguin" demo_world)) ∧
  stdout (final_world o)
    = stdout (final_world
                (demo_process_badge "badges/source.png" "penguin" demo_world))
      ++ [MsgDone].
Proof.
  apply (main_success demo_convert demo_ellipse demo_resize demo_png_size
           demo_write_to
           "prog" "badges/source.png" "penguin" demo_world).
  vm_compute. exact I.
Defined.

Lemma main_uncaught_witness :
  let o := demo_main ["prog"; "badges/source.png"; "penguin"] truncated_world in
  o = demo_process_badge "badges/source.png" "penguin" truncated_world ∧
  exit_status o = 1.
Proof.
  apply (main_uncaught demo_convert demo_ellipse demo_resize demo_png_size
           demo_write_to
           "prog" "badges/source.png" "penguin" truncated_world).
  - vm_compute. eauto.
  - vm_compute. intros [].
Defined.

(** ** Runs that end in an exception, on the examples *)

(** No bright pixel: the detector raises after the size line. *)
Example dark_source_run :
  demo_process_badge "badges/source.png" "penguin" dark_world =
    Raise TypeError (mkWorld (fs dark_world) [MsgSource 4 4]).
Proof. vm_compute. reflexivity. Qed.

(** Broken pixel data: the size line is printed, then the crop raises. *)
Example truncated_source_run :
  demo_process_badge "badges/source.png" "penguin" truncated_world =
    Raise OSError (mkWorld (fs truncated_world) [MsgSource 64 48]).
Proof. vm_compute. reflexivity. Qed.

(** A source refused on opening: nothing is printed. *)
Example bomb_source_run :
  demo_process_badge "badges/source.png" "penguin" bomb_world =
    Raise DecompressionBombError bomb_world.
Proof. vm_compute. reflexivity. Qed.

(** The second write fails: the first file is there, a part of the second. *)
Example small_disk_run :
  let o := process_badge demo_convert demo_ellipse demo_resize demo_png_size
             small_disk "badges/source.png" "penguin" demo_world in
  raised o = Some OSError ∧
  nbytes <$> fs (final_world o) !! "badges/penguin.png" = Some 262144 ∧
  fs (final_world o) !! "badges/penguin@2x.png" = Some (mkFile None 4096) ∧
  stdout (final_world o) = [MsgSource 64 48; MsgCircle 24 24 15].
Proof. vm_compute. done. Qed.
